(** * Homophone finder: the phoneme index, the fuzzy matcher and the ranker

    A shallow embedding of [Software/Word/homoform.py]:
    [PhonemeMapBuilder.run], [HomophoneWorker.__init__],
    [HomophoneWorker.process] and [MainWindow.start_search].

    Modelling choices.
    - A Python [str] is the [string] of its UTF-8 bytes; [str.strip]
      removes every character of [str.isspace], [str.lower] and
      [str.isdigit] are written out on the ASCII range.
    - A [dict] is a [gmap]; [defaultdict(list)] reads a missing key as [[]].
    - A Python [set] is a [gset]; iterating over it may visit its elements
      in any order, which the relation [finished_emit] keeps arbitrary.
    - A finite [float] is the rational it denotes ([Q]); comparison and
      negation are exact, division and multiplication round with [rnd].
    - [fuzz.ratio] (fuzzywuzzy) and [zipf_frequency] (wordfreq) are external
      libraries: they are parameters of the development. *)

From Stdlib Require Import Ascii String QArith Qround Lqa.
From stdpp Require Import gmap strings list sorting pretty.

Set Default Proof Using "Type".
#[local] Set Warnings "-clear-no-such-hyp".

Local Open Scope string_scope.
Local Open Scope nat_scope.
Local Open Scope list_scope.
Local Open Scope stdpp_scope.

(** ** Strings *)

(** [c.isdigit()] for a character of the ASCII range. *)
Definition isdigit (c : ascii) : bool :=
  (Ascii.leb "0" c && Ascii.leb c "9")%char.

(** The characters for which [str.isspace] holds, each as its UTF-8 bytes:
    U+0009 to U+000D, U+001C to U+0020, U+0085, U+00A0, U+1680,
    U+2000 to U+200A, U+2028, U+2029, U+202F, U+205F and U+3000. *)
Definition whitespace : list string :=
  (λ bytes, string_of_list_ascii (ascii_of_nat <$> bytes)) <$>
  [ [9]; [10]; [11]; [12]; [13]; [28]; [29]; [30]; [31]; [32];
    [194; 133]; [194; 160]; [225; 154; 128];
    [226; 128; 128]; [226; 128; 129]; [226; 128; 130]; [226; 128; 131];
    [226; 128; 132]; [226; 128; 133]; [226; 128; 134]; [226; 128; 135];
    [226; 128; 136]; [226; 128; 137]; [226; 128; 138];
    [226; 128; 168]; [226; 128; 169]; [226; 128; 175];
    [226; 129; 159]; [227; 128; 128] ].

(** [c.isspace()], for the character whose UTF-8 bytes are [c]. *)
Definition isspace (c : string) : bool := bool_decide (c ∈ whitespace).

Definition lower_char (c : ascii) : ascii :=
  if (Ascii.leb "A" c && Ascii.leb c "Z")%char
  then ascii_of_N (N_of_ascii c + 32)
  else c.

(** [s.lower()] *)
Fixpoint lower (s : string) : string :=
  match s with
  | "" => ""
  | String c s' => String (lower_char c) (lower s')
  end.

(** [s.lstrip()]: the leading white-space characters, of one, two or three
    bytes, are removed. *)
Fixpoint lstrip (s : string) : string :=
  match s with
  | String a s1 =>
      if isspace (String a "") then lstrip s1 else
      match s1 with
      | String b s2 =>
          if isspace (String a (String b "")) then lstrip s2 else
          match s2 with
          | String c s3 =>
              if isspace (String a (String b (String c ""))) then lstrip s3
              else s
          | "" => s
          end
      | "" => s
      end
  | "" => ""
  end.

(** [s.rstrip()]: a character is removed when it is white space and all
    that follows it has been removed. *)
Fixpoint rstrip (s : string) : string :=
  match s with
  | "" => ""
  | String a s' =>
      let r := rstrip s' in
      if isspace (String a r) then "" else String a r
  end.

(** [s.strip()] *)
Definition strip (s : string) : string := rstrip (lstrip s).

(** A text made of white-space characters only. *)
Inductive blank : string → Prop :=
  | blank_nil : blank ""
  | blank_cons (c s : string) : isspace c = true → blank s → blank (c +:+ s).

(** [p[-1]]: raises [IndexError] on the empty string ([None]). *)
Fixpoint last_char (p : string) : option ascii :=
  match p with
  | "" => None
  | String c "" => Some c
  | String _ p' => last_char p'
  end.

(** [p[:-1]] *)
Fixpoint drop_last (p : string) : string :=
  match p with
  | "" => ""
  | String _ "" => ""
  | String c p' => String c (drop_last p')
  end.

(** [p[:-1] if p[-1].isdigit() else p] *)
Definition strip_stress (p : string) : option string :=
  c ← last_char p; Some (if isdigit c then drop_last p else p).

(** [tuple(p[:-1] if p[-1].isdigit() else p for p in pron)] *)
Definition clean (pron : list string) : option (list string) :=
  mapM strip_stress pron.

(** [' '.join(seq)] *)
Definition join (seq : list string) : string := String.concat " " seq.

(** ** Data *)

(** [cmudict.dict()]: word to its pronunciation variants. *)
Abbreviation cmudict := (gmap string (list (list string))).

(** The phoneme map: normalized sequence to the words pronounced so. *)
Abbreviation index := (gmap (list string) (list string)).

(** The fields set by [HomophoneWorker.__init__]. *)
Record HomophoneWorker := {
  word : string;
  phoneme_map : index;
  accuracy : Z;
  min_zipf : Q;
  max_results : Z;
  use_freq_filter : bool
}.

(** [HomophoneWorker.__init__] *)
Definition HomophoneWorker_init (w : string) (pm : index) (acc : Z)
    (mz : Q) (mr : Z) (uf : bool) : HomophoneWorker :=
  {| word := lower w; phoneme_map := pm; accuracy := acc;
     min_zipf := mz; max_results := mr; use_freq_filter := uf |}.

(** [phoneme_map[clean].append(w)] on a [defaultdict(list)] *)
Definition append_word (c : list string) (w : string) (pm : index) : index :=
  <[c := pm !!! c ++ [w]]> pm.

(** The inner loop of [run]: [for pron in prons: ...]. An empty phoneme
    symbol raises [IndexError]. *)
Fixpoint add_prons (w : string) (prons : list (list string)) (pm : index)
    : option index :=
  match prons with
  | [] => Some pm
  | pron :: rest =>
      c ← clean pron; add_prons w rest (append_word c (lower w) pm)
  end.

(** [int(x)]: truncation toward zero. *)
Definition int (x : Q) : Z := Z.quot (Qnum x) (Zpos (Qden x)).

(** [(x1, s1) < (x2, s2)] on Python tuples: the first components that
    differ decide, the strings compare by code point. *)
Definition tuple_ltb (a b : Q * string) : bool :=
  match (a.1 ?= b.1)%Q with
  | Lt => true
  | Eq => String.ltb a.2 b.2
  | Gt => false
  end.

(** ** The window: what [start_search] reads and writes *)

(** The keyword arguments of the [HomophoneWorker(...)] call. *)
Record WorkerArgs := {
  arg_word : string;
  arg_phoneme_map : option index;
  arg_accuracy : Z;
  arg_min_zipf : Z;
  arg_max_results : Z;
  arg_use_freq_filter : bool
}.

Record MainWindow := {
  mw_phoneme_map : option index;      (* [None] until the build finishes *)
  is_ready : bool;
  input_text : string;
  accuracy_slider : Z;
  freq_slider : Z;
  result_limit_slider : Z;
  unlimited_checked : bool;
  results_list : list string
}.

(** The fields of [MainWindow.__init__] that the search path uses. *)
Definition MainWindow_init : MainWindow :=
  {| mw_phoneme_map := None; is_ready := false; input_text := "";
     accuracy_slider := 90; freq_slider := 2; result_limit_slider := 10;
     unlimited_checked := false; results_list := [] |}.

(** [on_phoneme_ready]: the only writer of [is_ready] after [__init__]. *)
Definition on_phoneme_ready (pm : index) (mw : MainWindow) : MainWindow :=
  {| mw_phoneme_map := Some pm; is_ready := true;
     input_text := input_text mw;
     accuracy_slider := accuracy_slider mw;
     freq_slider := freq_slider mw;
     result_limit_slider := result_limit_slider mw;
     unlimited_checked := unlimited_checked mw;
     results_list := results_list mw ++ ["Ready! Enter a word to begin"] |}.

(** [start_search]: the window afterwards, and the worker whose thread was
    started, if any. The method raises nothing and returns [None] on every
    path. *)
Definition start_search (mw : MainWindow) : MainWindow * option WorkerArgs :=
  let w := lower (strip (input_text mw)) in
  if String.eqb w "" || negb (is_ready mw) then (mw, None)
  else
    let acc := accuracy_slider mw in
    let mz := freq_slider mw in
    let mr := if negb (unlimited_checked mw)
              then result_limit_slider mw else 0%Z in
    let uf := negb (unlimited_checked mw) in
    ({| mw_phoneme_map := mw_phoneme_map mw; is_ready := is_ready mw;
        input_text := input_text mw;
        accuracy_slider := accuracy_slider mw;
        freq_slider := freq_slider mw;
        result_limit_slider := result_limit_slider mw;
        unlimited_checked := unlimited_checked mw;
        results_list := ["Searching..."] |},
     Some {| arg_word := w; arg_phoneme_map := mw_phoneme_map mw;
             arg_accuracy := acc; arg_min_zipf := mz;
             arg_max_results := mr; arg_use_freq_filter := uf |}).

(** ** Sample data *)

(** Length of a longest common subsequence. *)
Fixpoint lcs (a : list ascii) : list ascii → nat :=
  match a with
  | [] => λ _, 0
  | x :: a' =>
      fix inner (b : list ascii) : nat :=
        match b with
        | [] => 0
        | y :: b' =>
            if decide (x = y) then S (lcs a' b')
            else Nat.max (lcs a' b) (inner b')
        end
  end.

(** A similarity on the scale of [fuzz.ratio]: 100 on equal strings, else
    twice the common subsequence over the total length, in percent. *)
Definition sample_ratio (s1 s2 : string) : Z :=
  if decide (s1 = s2) then 100
  else
    let a := list_ascii_of_string s1 in
    let b := list_ascii_of_string s2 in
    (200 * Z.of_nat (lcs a b)) `div` Z.of_nat (length a + length b).

Definition sample_table : gmap string Q :=
  list_to_map [("night", 5.2%Q); ("knight", 4.1%Q); ("nite", 2.5%Q);
               ("neat", 4.1%Q); ("read", 5.4%Q); ("red", 5.3%Q);
               ("reed", 3.9%Q)].

(** A frequency oracle over a table of known words: a word the table
    lacks has no frequency of its own and is scored [minimum], the way
    wordfreq's [zipf_frequency(word, lang, wordlist, minimum)] does. *)
Definition oracle_frequency (table : gmap string Q) (minimum : Q)
    (w : string) : Q :=
  default minimum (table !! w).

(** The oracle with the floor [0]. *)
Definition sample_zipf : string → Q := oracle_frequency sample_table 0.

Definition sample_dict : cmudict :=
  list_to_map
    [("night", [["N"; "AY1"; "T"]]);
     ("knight", [["N"; "AY1"; "T"]]);
     ("nite", [["N"; "AY1"; "T"]]);
     ("nyte", [["N"; "AY1"; "T"]]);
     ("neat", [["N"; "IY1"; "T"]]);
     ("read", [["R"; "EH1"; "D"]; ["R"; "IY1"; "D"]]);
     ("red", [["R"; "EH1"; "D"]]);
     ("reed", [["R"; "IY1"; "D"]]);
     ("zyzzyva", [["Z"; "IH1"; "Z"; "IH0"; "V"; "AH0"]]);
     ("mute", [])].

(** Exact arithmetic, as a rounding. *)
Definition exact : Q → Q := λ x, x.

(** ** Counting words in the index *)

(** How often [w] occurs in a word list. *)
Definition occurrences (w : string) (l : list string) : nat :=
  length (filter (λ x, x = w) l).

(** How many pronunciation variants of the entry [(e, prons)] put the word
    [w] under the key [k]. *)
Definition variants_of (k : list string) (w : string)
    (it : string * list (list string)) : nat :=
  if decide (lower it.1 = w)
  then length (filter (λ pron, clean pron = Some k) it.2)
  else 0.

(** The same, over all dictionary items. *)
Definition variants_at (k : list string) (w : string)
    (items : list (string * list (list string))) : nat :=
  sum_list (variants_of k w <$> items).

(** No phoneme symbol of the dictionary is the empty string. *)
Definition well_formed (cmu_dict : cmudict) : Prop :=
  ∀ e prons, cmu_dict !! e = Some prons →
    Forall (λ pron, Forall (λ p, p ≠ "") pron) prons.

(** The index that [run] builds from [sample_dict] (see [sample_run]). *)
Definition sample_index : index :=
  list_to_map
    [(["N"; "IY"; "T"], ["neat"]);
     (["N"; "AY"; "T"], ["knight"; "nyte"; "night"; "nite"]);
     (["Z"; "IH"; "Z"; "IH"; "V"; "AH"], ["zyzzyva"]);
     (["R"; "IY"; "D"], ["reed"; "read"]);
     (["R"; "EH"; "D"], ["read"; "red"])].

(** A worker for the query "Night" over the sample index. *)
Definition night_worker (acc : Z) (mz : Q) (mr : Z) (uf : bool)
    : HomophoneWorker :=
  HomophoneWorker_init "Night" sample_index acc mz mr uf.

(** A dictionary whose one word has two variants that differ in stress,
    and the index that [run] builds from it. *)
Definition stress_dict : cmudict :=
  {[ "a" := [["AH0"]; ["AH1"]] ]}.

Definition stress_index : index :=
  {[ ["AH"] := ["a"; "a"] ]}.

(** A dictionary of two words, and the index that [run] builds from it. *)
Definition two_word_dict : cmudict :=
  list_to_map [("night", [["N"; "AY1"; "T"]]); ("red", [["R"; "EH1"; "D"]])].

Definition two_word_index : index :=
  list_to_map [(["N"; "AY"; "T"], ["night"]); (["R"; "EH"; "D"], ["red"])].

(** The window while the index is being built, with a word typed in. *)
Definition building_window : MainWindow :=
  {| mw_phoneme_map := None; is_ready := false; input_text := "night";
     accuracy_slider := 90; freq_slider := 2; result_limit_slider := 10;
     unlimited_checked := false; results_list := [] |}.

(** The same worker with another frequency threshold. *)
Definition with_min_zipf (mz : Q) (w : HomophoneWorker) : HomophoneWorker :=
  {| word := word w; phoneme_map := phoneme_map w; accuracy := accuracy w;
     min_zipf := mz; max_results := max_results w;
     use_freq_filter := use_freq_filter w |}.

(** ** The rest of the window *)

(** The prefix that [display_results] puts before a word, byte for byte as
    the source file has it. *)
Definition bullet : string :=
  String "195" (String "162" (String "226" (String "130"
    (String "172" (String "194" (String "162" " ")))))).

(** [display_results]: the result list is cleared and filled again. *)
Definition display_results (homophones : list string) (mw : MainWindow)
    : MainWindow :=
  {| mw_phoneme_map := mw_phoneme_map mw; is_ready := is_ready mw;
     input_text := input_text mw;
     accuracy_slider := accuracy_slider mw;
     freq_slider := freq_slider mw;
     result_limit_slider := result_limit_slider mw;
     unlimited_checked := unlimited_checked mw;
     results_list :=
       if decide (homophones = []) then ["No homophones found"]
       else ((λ w, bullet +:+ w) <$> homophones) ++
            ["Found " +:+ pretty (length homophones) +:+ " homophones"] |}.

(** The [HomophoneWorker(...)] call of [start_search], for a window whose
    [phoneme_map] is the index [pm]. *)
Definition worker_of_args (pm : index) (a : WorkerArgs) : HomophoneWorker :=
  HomophoneWorker_init (arg_word a) pm (arg_accuracy a)
    (inject_Z (arg_min_zipf a)) (arg_max_results a) (arg_use_freq_filter a).

(** What happens to the window: the builder finishes, the button is
    clicked, a worker finishes, or the user changes the widgets (to any
    values). *)
Inductive event :=
| PhonemeReady (pm : index)
| FindClicked
| WorkerFinished (homophones : list string)
| UserEdit (text : string) (acc freq lim : Z) (unlimited : bool).

(** The slot connected to each event. *)
Definition handle (mw : MainWindow) (ev : event) : MainWindow :=
  match ev with
  | PhonemeReady pm => on_phoneme_ready pm mw
  | FindClicked => (start_search mw).1
  | WorkerFinished homophones => display_results homophones mw
  | UserEdit text acc freq lim unlimited =>
      {| mw_phoneme_map := mw_phoneme_map mw; is_ready := is_ready mw;
         input_text := text; accuracy_slider := acc; freq_slider := freq;
         result_limit_slider := lim; unlimited_checked := unlimited;
         results_list := results_list mw |}
  end.

(** The window after a sequence of events, from [__init__] on. *)
Definition window_after (evs : list event) : MainWindow :=
  foldl handle MainWindow_init evs.

(** The same worker with another threshold, and with another cap. *)
Definition with_accuracy (acc : Z) (w : HomophoneWorker) : HomophoneWorker :=
  {| word := word w; phoneme_map := phoneme_map w; accuracy := acc;
     min_zipf := min_zipf w; max_results := max_results w;
     use_freq_filter := use_freq_filter w |}.

Definition with_max_results (mr : Z) (w : HomophoneWorker) : HomophoneWorker :=
  {| word := word w; phoneme_map := phoneme_map w; accuracy := accuracy w;
     min_zipf := min_zipf w; max_results := mr;
     use_freq_filter := use_freq_filter w |}.

(** The number of words stored in an index, over all its keys, and the
    number of pronunciation variants in a dictionary, over all its words. *)
Definition stored_words (pm : index) : nat :=
  sum_list (length <$> (map_to_list pm).*2).

Definition total_variants (cmu_dict : cmudict) : nat :=
  sum_list ((λ it, length it.2) <$> map_to_list cmu_dict).

(** Two phoneme symbols that are equal, or differ in their stress digit
    only. *)
Definition same_but_stress (p q : string) : Prop :=
  (p = q ∧ p ≠ "") ∨
  ∃ s d1 d2, isdigit d1 = true ∧ isdigit d2 = true ∧
             p = s +:+ String d1 "" ∧ q = s +:+ String d2 "".

(** The coarsest similarity on the scale of [fuzz.ratio]: 100 on equal
    strings, 0 otherwise. *)
Definition equal_ratio (s1 s2 : string) : Z :=
  if decide (s1 = s2) then 100 else 0.

(** The window once the sample index is built, with a word typed in, and
    the same with "Unlimited Results" checked. *)
Definition ready_window : MainWindow :=
  {| mw_phoneme_map := Some sample_index; is_ready := true;
     input_text := "  Night "; accuracy_slider := 90; freq_slider := 2;
     result_limit_slider := 10; unlimited_checked := false;
     results_list := ["Ready! Enter a word to begin"] |}.

Definition unlimited_window : MainWindow :=
  {| mw_phoneme_map := Some sample_index; is_ready := true;
     input_text := "  Night "; accuracy_slider := 90; freq_slider := 2;
     result_limit_slider := 10; unlimited_checked := true;
     results_list := ["Ready! Enter a word to begin"] |}.

(** A no-break space (U+00A0), a space and a tab typed into a ready
    window. *)
Definition blank_window : MainWindow :=
  {| mw_phoneme_map := Some sample_index; is_ready := true;
     input_text := String "194" (String "160" (String " " (String "009" "")));
     accuracy_slider := 90; freq_slider := 2;
     result_limit_slider := 10; unlimited_checked := false;
     results_list := ["Ready! Enter a word to begin"] |}.

(** The arguments that [start_search] passes from these two windows. *)
Definition ready_args : WorkerArgs :=
  {| arg_word := "night"; arg_phoneme_map := Some sample_index;
     arg_accuracy := 90; arg_min_zipf := 2; arg_max_results := 10;
     arg_use_freq_filter := true |}.

Definition unlimited_args : WorkerArgs :=
  {| arg_word := "night"; arg_phoneme_map := Some sample_index;
     arg_accuracy := 90; arg_min_zipf := 2; arg_max_results := 0;
     arg_use_freq_filter := false |}.

(** ** The builder and the worker *)

Section Engine.

(** [fuzz.ratio] *)
Variable ratio : string → string → Z.
(** [λ w, zipf_frequency(w, 'en')] *)
Variable zipf_frequency : string → Q.
(** The rounding of an exact quotient or product to a [float]. *)
Variable rnd : Q → Q.

(** [int((i/total)*100)]. The loop calls it with [i < total] only, so
    the division by zero of an empty dictionary is never evaluated. *)
Definition percent (i total : nat) : Z :=
  int (rnd (rnd (inject_Z (Z.of_nat i) / inject_Z (Z.of_nat total)) * 100))%Q.

(** The loop of [PhonemeMapBuilder.run] from item [i] on: the progress
    values emitted, and the map if no exception stopped the loop. *)
Fixpoint run_loop (total i : nat) (items : list (string * list (list string)))
    (pm : index) : list Z * option index :=
  match items with
  | [] => ([], Some pm)
  | (w, prons) :: rest =>
      let p := percent i total in
      match add_prons w prons pm with
      | None => ([p], None)
      | Some pm' =>
          let r := run_loop total (S i) rest pm' in (p :: r.1, r.2)
      end
  end.

(** [PhonemeMapBuilder.run]: the values sent on [progress], in order,
    and the argument of [finished] when it is emitted. *)
Definition run (cmu_dict : cmudict) : list Z * option index :=
  run_loop (size cmu_dict) 0 (map_to_list cmu_dict) ∅.

(** [score >= self.accuracy] for one pair of sequences. *)
Definition scores (w : HomophoneWorker) (seq candidate_seq : list string)
    : bool :=
  bool_decide (accuracy w ≤ ratio (join seq) (join candidate_seq))%Z.

(** The body of the inner loop: [if score >= self.accuracy:
    candidates.update(self.phoneme_map[candidate_seq])]. *)
Definition visit (w : HomophoneWorker) (seq : list string)
    (acc : gset string) (candidate_seq : list string) : gset string :=
  if scores w seq candidate_seq
  then acc ∪ list_to_set (phoneme_map w !!! candidate_seq)
  else acc.

(** The two nested loops that fill [candidates]. *)
Definition candidates (w : HomophoneWorker)
    (target_sequences : list (list string)) : gset string :=
  foldl (λ acc seq, foldl (visit w seq) acc (map_to_list (phoneme_map w)).*1)
        ∅ target_sequences.

(** The body of the loop that fills [valid]. *)
Definition keeps (w : HomophoneWorker) (x : string) : bool :=
  negb (String.eqb x (word w)) &&
  (if use_freq_filter w
   then Qle_bool (min_zipf w) (zipf_frequency x)
   else true).

(** [valid], when the set [candidates] is visited in the order [cs]. *)
Definition valid (w : HomophoneWorker) (cs : list string) : list string :=
  filter (λ x, keeps w x) cs.

(** The sort key [(-zipf_frequency(w, 'en'), w)]. *)
Definition key (x : string) : Q * string := ((- zipf_frequency x)%Q, x).

(** [x] may stay in front of [y] in [sorted]: not [key y < key x]. *)
Definition before (x y : string) : Prop := tuple_ltb (key y) (key x) = false.

#[local] Instance before_dec : RelDecision before :=
  λ x y, decide (tuple_ltb (key y) (key x) = false).

(** [sorted(unique, key=lambda w: (-zipf_frequency(w, 'en'), w))] *)
Definition sorted_words (unique : list string) : list string :=
  merge_sort before unique.

(** [sorted_words[:max_results] if max_results > 0 else sorted_words] *)
Definition limited (w : HomophoneWorker) (l : list string) : list string :=
  if bool_decide (0 < max_results w)%Z
  then take (Z.to_nat (max_results w)) l else l.

(** [cmu_dict.get(self.word, [])] *)
Definition target_prons (cmu_dict : cmudict) (w : HomophoneWorker)
    : list (list string) :=
  default [] (cmu_dict !! word w).

(** [HomophoneWorker.process] with both sets visited in the order of
    [elements]: the argument of [finished.emit], or [None] when an empty
    phoneme symbol raises. *)
Definition process (cmu_dict : cmudict) (w : HomophoneWorker)
    : option (list string) :=
  if bool_decide (target_prons cmu_dict w = []) then Some []
  else
    target_sequences ← mapM clean (target_prons cmu_dict w);
    let cs := elements (candidates w target_sequences) in
    let unique := elements (list_to_set (C := gset string) (valid w cs)) in
    Some (limited w (sorted_words unique)).

(** [HomophoneWorker.process] with the iteration order of the two sets
    left open: [cs] lists [candidates] and [unique] lists [set(valid)] in
    some order. *)
Inductive finished_emit (cmu_dict : cmudict) (w : HomophoneWorker)
    : list string → Prop :=
| emit_unknown :
    target_prons cmu_dict w = [] → finished_emit cmu_dict w []
| emit_ranked target_sequences cs unique :
    target_prons cmu_dict w ≠ [] →
    mapM clean (target_prons cmu_dict w) = Some target_sequences →
    cs ≡ₚ elements (candidates w target_sequences) →
    unique ≡ₚ elements (list_to_set (C := gset string) (valid w cs)) →
    finished_emit cmu_dict w (limited w (sorted_words unique)).

(** The sequences of the index that reach the threshold for at least one
    target sequence: the keys at which the inner loop takes its branch. *)
Definition matched (w : HomophoneWorker)
    (target_sequences : list (list string)) : gset (list string) :=
  filter (λ candidate_seq,
            Exists (λ seq, scores w seq candidate_seq) target_sequences)
         (dom (phoneme_map w)).

(** [set(valid)]: the candidates that pass the loop body. *)
Definition survivors (w : HomophoneWorker)
    (target_sequences : list (list string)) : gset string :=
  filter (λ x, keeps w x) (candidates w target_sequences).

(** The words that survive filtering for a query, whatever the entry. *)
Definition surviving (cmu_dict : cmudict) (w : HomophoneWorker)
    : gset string :=
  from_option (survivors w) ∅ (mapM clean (target_prons cmu_dict w)).

(** The ranking rule in the words of the specification: descending
    frequency, ties broken by ascending lexicographic order. *)
Definition ranks_before (x y : string) : Prop :=
  (zipf_frequency y < zipf_frequency x)%Q ∨
  ((zipf_frequency x == zipf_frequency y)%Q ∧ String.le x y).

(** [x] ranks strictly before [y]. *)
Definition ranks_strictly_before (x y : string) : Prop :=
  ranks_before x y ∧ ¬ ranks_before y x.

Implicit Types (e x y : string) (prons : list (list string)).
Implicit Types (pron k seq : list string) (pm : index).
Implicit Types (items : list (string * list (list string))).
Implicit Types (ts : list (list string)) (cs u out l : list string).
Implicit Types (cmu_dict : cmudict) (ps : list Z).

(** ** Strings *)

Lemma lower_char_idemp c : lower_char (lower_char c) = lower_char c.
Proof. by destruct c as [[] [] [] [] [] [] [] []]. Qed.

Lemma lower_idemp s : lower (lower s) = lower s.
Proof. induction s as [|c s IH]; simpl; [done|]. by rewrite lower_char_idemp, IH. Qed.

Lemma string_ltb_false x y : String.ltb y x = false ↔ String.le x y.
Proof.
  unfold String.le, String.ltb, String.leb.
  rewrite (String.compare_antisym y x).
  destruct (String.compare x y); simpl; split; (done || by intros []).
Qed.

(** ** The order of [sorted] *)

Lemma before_ranks x y : before x y ↔ ranks_before x y.
Proof.
  unfold before, ranks_before, tuple_ltb, key; simpl.
  destruct (Qcompare_spec (- zipf_frequency y) (- zipf_frequency x)) as [E|E|E].
  - rewrite string_ltb_false. split; [intros; right; split; [lra|done]|].
    intros [?|[_ ?]]; [lra|done].
  - split; [done|]. intros [?|[? _]]; lra.
  - split; [intros _; left; lra|done].
Qed.

#[local] Instance ranks_before_trans : Transitive ranks_before.
Proof.
  intros x y z [H1|[H1 L1]] [H2|[H2 L2]]; unfold ranks_before.
  - left; lra.
  - left; lra.
  - left; lra.
  - right; split; [lra|]. by etrans.
Qed.

#[local] Instance ranks_before_total : Total ranks_before.
Proof.
  intros x y. unfold ranks_before.
  destruct (Qlt_le_dec (zipf_frequency y) (zipf_frequency x)); [by left; left|].
  destruct (Qlt_le_dec (zipf_frequency x) (zipf_frequency y)); [by right; left|].
  destruct (total String.le x y); [left|right]; right; split; (lra || done).
Qed.

#[local] Instance ranks_before_antisym : AntiSymm (=) ranks_before.
Proof.
  intros x y [H1|[H1 L1]] [H2|[H2 L2]]; try lra.
  by apply (anti_symm String.le).
Qed.

#[local] Instance before_trans : Transitive before.
Proof. intros x y z. rewrite !before_ranks. apply ranks_before_trans. Qed.

#[local] Instance before_total : Total before.
Proof. intros x y. rewrite !before_ranks. apply ranks_before_total. Qed.

#[local] Instance before_antisym : AntiSymm (=) before.
Proof. intros x y. rewrite !before_ranks. apply ranks_before_antisym. Qed.

Lemma sorted_words_perm u : sorted_words u ≡ₚ u.
Proof. apply merge_sort_Permutation. Qed.

Lemma sorted_words_sorted u : StronglySorted ranks_before (sorted_words u).
Proof.
  unfold sorted_words.
  induction (StronglySorted_merge_sort before u) as [|x l _ IH Hx];
    constructor; [done|].
  eapply Forall_impl; [exact Hx|]. intros y. by rewrite before_ranks.
Qed.

(** [sorted_words] stands for any correct sort: a list sorted by the rule
    that holds the same words is the list it returns. *)
Lemma sorted_words_unique u l :
  l ≡ₚ u → StronglySorted ranks_before l → sorted_words u = l.
Proof.
  intros E Hl. apply (StronglySorted_unique ranks_before);
    [apply sorted_words_sorted|done|].
  by rewrite sorted_words_perm.
Qed.

(** The sorted list does not depend on the order in which the set was
    listed. *)
Lemma sorted_words_order u1 u2 : u1 ≡ₚ u2 → sorted_words u1 = sorted_words u2.
Proof.
  intros E. apply (StronglySorted_unique ranks_before);
    [apply sorted_words_sorted..|].
  by rewrite !sorted_words_perm.
Qed.

(** ** The matcher *)

Lemma elem_of_keys (pm : index) c : c ∈ (map_to_list pm).*1 ↔ c ∈ dom pm.
Proof.
  rewrite elem_of_dom, list_elem_of_fmap. split.
  - intros [[c' ws] [-> H]]. apply elem_of_map_to_list in H. by exists ws.
  - intros [ws H]. exists (c, ws). split; [done|]. by apply elem_of_map_to_list.
Qed.

Lemma elem_of_inner_loop w seq ks acc x :
  x ∈ foldl (visit w seq) acc ks ↔
  x ∈ acc ∨ ∃ c, c ∈ ks ∧ scores w seq c ∧ x ∈ phoneme_map w !!! c.
Proof.
  revert acc. induction ks as [|c ks IH]; intros acc; simpl.
  - split; [by left|]. intros [?|(c & Hc & _)]; [done|]. by apply elem_of_nil in Hc.
  - rewrite IH. unfold visit at 1. destruct (scores w seq c) eqn:Hs.
    + rewrite elem_of_union, elem_of_list_to_set. split.
      * intros [[?|?]|(c' & ? & ? & ?)]; [by left|right..].
        -- exists c. rewrite Hs. split_and!; [left|done..].
        -- exists c'. split_and!; [by right|done..].
      * intros [?|(c' & [->|?]%elem_of_cons & ? & ?)];
          [by left; left|by left; right|right; by exists c'].
    + split.
      * intros [?|(c' & ? & ? & ?)]; [by left|right].
        exists c'. split_and!; [by right|done..].
      * intros [?|(c' & [->|?]%elem_of_cons & Hc & ?)]; [by left| |right; by exists c'].
        by rewrite Hs in Hc.
Qed.

Lemma elem_of_outer_loop w ts acc x :
  x ∈ foldl (λ acc seq,
               foldl (visit w seq) acc (map_to_list (phoneme_map w)).*1)
            acc ts ↔
  x ∈ acc ∨ ∃ seq c, seq ∈ ts ∧ c ∈ dom (phoneme_map w) ∧
                      scores w seq c ∧ x ∈ phoneme_map w !!! c.
Proof.
  revert acc. induction ts as [|seq ts IH]; intros acc; simpl.
  - split; [by left|]. intros [?|(seq & c & Hs & _)]; [done|].
    by apply elem_of_nil in Hs.
  - rewrite IH, elem_of_inner_loop. setoid_rewrite elem_of_keys. split.
    + intros [[?|(c & ? & ? & ?)]|(seq' & c & ? & ? & ? & ?)]; [by left|right..].
      * exists seq, c. split_and!; [left|done..].
      * exists seq', c. split_and!; [by right|done..].
    + intros [?|(seq' & c & [->|?]%elem_of_cons & ? & ? & ?)].
      * by left; left.
      * left; right. by exists c.
      * right. by exists seq', c.
Qed.

Lemma elem_of_candidates w ts x :
  x ∈ candidates w ts ↔
  ∃ seq c, seq ∈ ts ∧ c ∈ dom (phoneme_map w) ∧
           scores w seq c ∧ x ∈ phoneme_map w !!! c.
Proof.
  unfold candidates. rewrite elem_of_outer_loop. split; [|by right].
  intros [H|?]; [|done]. by apply not_elem_of_empty in H.
Qed.

Lemma elem_of_matched w ts c :
  c ∈ matched w ts ↔
  c ∈ dom (phoneme_map w) ∧ ∃ seq, seq ∈ ts ∧ scores w seq c.
Proof.
  clear zipf_frequency rnd.
  unfold matched. rewrite elem_of_filter, Exists_exists. naive_solver.
Qed.

(** [candidates] holds the words of the matched sequences, no others. *)
Lemma candidates_matched w ts x :
  x ∈ candidates w ts ↔ ∃ c, c ∈ matched w ts ∧ x ∈ phoneme_map w !!! c.
Proof.
  clear zipf_frequency rnd.
  rewrite elem_of_candidates. setoid_rewrite elem_of_matched. naive_solver.
Qed.

(** ** The ranker *)

Lemma elem_of_valid w cs x : x ∈ valid w cs ↔ keeps w x ∧ x ∈ cs.
Proof. unfold valid. by rewrite list_elem_of_filter. Qed.

Lemma valid_survivors w ts cs :
  cs ≡ₚ elements (candidates w ts) →
  list_to_set (C := gset string) (valid w cs) = survivors w ts.
Proof.
  intros E. apply set_eq. intros x.
  rewrite elem_of_list_to_set, elem_of_valid. unfold survivors.
  rewrite elem_of_filter, E, elem_of_elements. done.
Qed.

Lemma keeps_spec w x :
  keeps w x ↔
  x ≠ word w ∧ (use_freq_filter w = true → (min_zipf w <= zipf_frequency x)%Q).
Proof.
  clear ratio rnd.
  unfold keeps. rewrite andb_True, negb_True.
  rewrite Is_true_true, String.eqb_eq.
  destruct (use_freq_filter w).
  - rewrite Is_true_true, Qle_bool_iff. naive_solver.
  - naive_solver.
Qed.

Lemma limited_nil w : limited w [] = [].
Proof. unfold limited. case_bool_decide; [by rewrite take_nil|done]. Qed.

Lemma survivors_nil w : survivors w [] = ∅.
Proof. unfold survivors, candidates. simpl. set_solver. Qed.

(** Every run of [process] emits what the function computes. *)
Lemma finished_emit_process cmu_dict w out :
  finished_emit cmu_dict w out ↔ process cmu_dict w = Some out.
Proof.
  unfold process. split.
  - intros [E|ts cs u Hne Hts Hcs Hu].
    + by rewrite bool_decide_eq_true_2.
    + rewrite bool_decide_eq_false_2 by done. rewrite Hts. simpl.
      do 2 f_equal. apply sorted_words_order. rewrite Hu.
      by rewrite (valid_survivors w ts cs), (valid_survivors w ts _).
  - case_bool_decide as E.
    + intros [= <-]. by constructor.
    + destruct (mapM clean (target_prons cmu_dict w)) as [ts|] eqn:Hts;
        [|done]. simpl. intros [= <-]. by econstructor.
Qed.

(** What is emitted: the survivors, sorted and cut. *)
Lemma finished_emit_ranked cmu_dict w out :
  finished_emit cmu_dict w out →
  out = limited w (sorted_words (elements (surviving cmu_dict w))).
Proof.
  unfold surviving. intros [E|ts cs u Hne Hts Hcs Hu].
  - rewrite E. simpl. rewrite survivors_nil, elements_empty.
    by rewrite limited_nil.
  - rewrite Hts. simpl. f_equal. apply sorted_words_order.
    by rewrite Hu, (valid_survivors w ts cs).
Qed.

(** [process] raises only on an empty phoneme symbol of the query. *)
Lemma process_total cmu_dict w :
  is_Some (mapM clean (target_prons cmu_dict w)) →
  is_Some (process cmu_dict w).
Proof.
  intros [ts Hts]. unfold process. case_bool_decide; [done|].
  rewrite Hts. done.
Qed.

(** ** The builder *)

Lemma strip_stress_is_Some p : is_Some (strip_stress p) ↔ p ≠ "".
Proof.
  unfold strip_stress. split.
  - intros [q Hq] ->. done.
  - intros Hp. assert (is_Some (last_char p)) as [c ->]; [|by eexists].
    induction p as [|c [|c' p] IH]; [done|by eexists|].
    apply IH. done.
Qed.

(** [clean] raises exactly on a pronunciation with an empty symbol. *)
Lemma clean_is_Some pron : is_Some (clean pron) ↔ Forall (λ p, p ≠ "") pron.
Proof.
  unfold clean. rewrite mapM_is_Some. apply Forall_proper; [|done].
  intros p. apply strip_stress_is_Some.
Qed.

Lemma lookup_total_append_word (c : list string) (w : string) (pm : index) k :
  append_word c w pm !!! k =
  if decide (c = k) then pm !!! c ++ [w] else pm !!! k.
Proof.
  unfold append_word. case_decide as E.
  - subst. by rewrite lookup_total_insert_eq.
  - by rewrite lookup_total_insert_ne.
Qed.

Lemma occurrences_app (w : string) l1 l2 :
  occurrences w (l1 ++ l2) = occurrences w l1 + occurrences w l2.
Proof. unfold occurrences. by rewrite filter_app, length_app. Qed.

Lemma occurrences_cons (w : string) x l :
  occurrences w (x :: l) = (if decide (x = w) then 1 else 0) + occurrences w l.
Proof.
  unfold occurrences. rewrite filter_cons. by case_decide.
Qed.

Lemma occurrences_pos (w : string) l : w ∈ l ↔ 0 < occurrences w l.
Proof.
  clear ratio zipf_frequency rnd.
  induction l as [|x l IH]; [by split; [intros ?%elem_of_nil|inversion 1]|].
  rewrite occurrences_cons, elem_of_cons, IH.
  case_decide; naive_solver lia.
Qed.

Lemma NoDup_occurrences l : NoDup l ↔ ∀ w : string, occurrences w l ≤ 1.
Proof.
  induction l as [|x l IH].
  - split; [intros _ w; unfold occurrences; simpl; lia|constructor].
  - rewrite NoDup_cons, IH. setoid_rewrite occurrences_cons. split.
    + intros [Hx Hl] w. specialize (Hl w). case_decide; [subst|lia].
      rewrite occurrences_pos in Hx. lia.
    + intros H. split.
      * rewrite occurrences_pos. specialize (H x).
        rewrite decide_True in H by done. lia.
      * intros w. specialize (H w). lia.
Qed.

Lemma add_prons_occurrences e prons pm0 pm k (w : string) :
  add_prons e prons pm0 = Some pm →
  occurrences w (pm !!! k) =
  occurrences w (pm0 !!! k) + variants_of k w (e, prons).
Proof.
  unfold variants_of; simpl. revert pm0.
  induction prons as [|pron rest IH]; intros pm0; simpl.
  - intros [= ->]. case_decide; simpl; lia.
  - destruct (clean pron) as [c|] eqn:Hc; [simpl|done].
    intros H. rewrite (IH _ H), lookup_total_append_word.
    rewrite filter_cons. rewrite Hc.
    destruct (decide (c = k)) as [->|Hk].
    + rewrite occurrences_app, occurrences_cons. unfold occurrences.
      rewrite filter_nil.
      repeat case_decide; simplify_eq/=; lia.
    + repeat case_decide; simplify_eq/=; lia.
Qed.

Lemma variants_at_cons k (w : string) it items :
  variants_at k w (it :: items) = variants_of k w it + variants_at k w items.
Proof. done. Qed.

Lemma run_loop_occurrences (total i : nat) items pm0 pm ps k (w : string) :
  run_loop total i items pm0 = (ps, Some pm) →
  occurrences w (pm !!! k) =
  occurrences w (pm0 !!! k) + variants_at k w items.
Proof.
  revert i pm0 ps.
  induction items as [|[e prons] rest IH]; intros i pm0 ps.
  - intros [= <- <-]. unfold variants_at; simpl. lia.
  - rewrite variants_at_cons. simpl.
    destruct (add_prons e prons pm0) as [pm1|] eqn:H1; [|done].
    destruct (run_loop total (S i) rest pm1) as [ps' r] eqn:H2. simpl.
    intros [= <- ->].
    rewrite (IH _ _ _ H2), (add_prons_occurrences _ _ _ _ _ _ H1). lia.
Qed.

Lemma variants_of_pos k (w : string) e prons :
  0 < variants_of k w (e, prons) ↔
  lower e = w ∧ ∃ pron, pron ∈ prons ∧ clean pron = Some k.
Proof.
  clear ratio zipf_frequency rnd.
  unfold variants_of; simpl. case_decide as E; [|naive_solver lia].
  split.
  - intros H. split; [done|].
    destruct (filter (λ pron, clean pron = Some k) prons) as [|pron l] eqn:Hf;
      [simpl in H; lia|].
    assert (pron ∈ filter (λ pron, clean pron = Some k) prons) as Hin
      by (rewrite Hf; left).
    apply list_elem_of_filter in Hin as [? ?]. by exists pron.
  - intros [_ (pron & Hin & Hc)].
    assert (pron ∈ filter (λ pron, clean pron = Some k) prons) as Hin'
      by (by apply list_elem_of_filter).
    destruct (filter _ prons); [by apply elem_of_nil in Hin'|simpl; lia].
Qed.

Lemma variants_at_pos k (w : string) items :
  0 < variants_at k w items ↔
  ∃ e prons pron, (e, prons) ∈ items ∧ lower e = w ∧
                  pron ∈ prons ∧ clean pron = Some k.
Proof.
  induction items as [|[e prons] rest IH].
  - unfold variants_at; simpl. split; [lia|].
    intros (? & ? & ? & ?%elem_of_nil & _). done.
  - rewrite variants_at_cons. split.
    + intros H.
      destruct (decide (0 < variants_of k w (e, prons))) as [Hp|Hp].
      * apply variants_of_pos in Hp as [? (pron & ? & ?)].
        exists e, prons, pron. split_and!; [left|done..].
      * assert (0 < variants_at k w rest) as Hr by lia.
        apply IH in Hr as (e' & prons' & pron & ? & ? & ? & ?).
        exists e', prons', pron. split_and!; [by right|done..].
    + intros (e' & prons' & pron & Hin & ? & ? & ?).
      apply elem_of_cons in Hin as [[= -> ->]|Hin].
      * assert (0 < variants_of k w (e, prons)); [|lia].
        apply variants_of_pos. split; [done|]. by exists pron.
      * assert (0 < variants_at k w rest); [|lia].
        apply IH. by exists e', prons', pron.
Qed.

(** A finished build cleaned every pronunciation of every entry. *)
Lemma add_prons_is_Some e prons pm0 :
  is_Some (add_prons e prons pm0) ↔ Forall (λ pron, is_Some (clean pron)) prons.
Proof.
  revert pm0. induction prons as [|pron rest IH]; intros pm0; simpl.
  - split; [constructor|by eexists].
  - rewrite Forall_cons. destruct (clean pron) as [c|]; simpl.
    + rewrite IH. split; [by split|by intros [_ ?]].
    + split; [by intros [? ?]|by intros [[? ?] _]].
Qed.

Lemma run_loop_is_Some (total i : nat) items pm0 :
  is_Some (run_loop total i items pm0).2 ↔
  Forall (λ it, Forall (λ pron, is_Some (clean pron)) it.2) items.
Proof.
  revert i pm0. induction items as [|[e prons] rest IH]; intros i pm0; simpl.
  - split; [constructor|by eexists].
  - rewrite Forall_cons; simpl. rewrite <-(add_prons_is_Some e prons pm0).
    destruct (add_prons e prons pm0) as [pm1|]; simpl.
    + rewrite IH. split; [by split|by intros [_ ?]].
    + split; [by intros [? ?]|by intros [[? ?] _]].
Qed.

(** The build finishes exactly on a well-formed dictionary. *)
Lemma run_is_Some cmu_dict : is_Some (run cmu_dict).2 ↔ well_formed cmu_dict.
Proof.
  unfold run, well_formed. rewrite run_loop_is_Some, Forall_forall. split.
  - intros H e prons He. apply elem_of_map_to_list in He.
    specialize (H _ He). simpl in H.
    eapply Forall_impl; [exact H|]. intros pron. by rewrite clean_is_Some.
  - intros H [e prons] He. apply elem_of_map_to_list in He. simpl.
    eapply Forall_impl; [exact (H _ _ He)|]. intros pron. by rewrite clean_is_Some.
Qed.

(** The count of a word under a key of the built index. *)
Lemma run_occurrences cmu_dict ps pm k (w : string) :
  run cmu_dict = (ps, Some pm) →
  occurrences w (pm !!! k) = variants_at k w (map_to_list cmu_dict).
Proof.
  intros H. rewrite (run_loop_occurrences _ _ _ _ _ _ k w H).
  by rewrite lookup_total_empty.
Qed.

(** Membership in the built index. *)
Lemma run_elem_of cmu_dict ps pm k (w : string) :
  run cmu_dict = (ps, Some pm) →
  w ∈ pm !!! k ↔
  ∃ e prons pron, cmu_dict !! e = Some prons ∧ lower e = w ∧
                  pron ∈ prons ∧ clean pron = Some k.
Proof.
  intros H. rewrite occurrences_pos, (run_occurrences _ _ _ _ _ H).
  rewrite variants_at_pos. by setoid_rewrite elem_of_map_to_list.
Qed.

Lemma lookup_total_elem_of_dom pm k (w : string) : w ∈ pm !!! k → k ∈ dom pm.
Proof.
  rewrite lookup_total_alt, elem_of_dom.
  destruct (pm !! k); [by eexists|]. by intros ?%elem_of_nil.
Qed.

(** ** The progress signal *)

Section Progress.

(** What the progress values need of float arithmetic: rounding is
    monotone and leaves [0], [1] and [100] as they are. *)
Hypothesis rnd_mono : ∀ x y : Q, (x <= y)%Q → (rnd x <= rnd y)%Q.
Hypothesis rnd_0 : (rnd 0 == 0)%Q.
Hypothesis rnd_1 : (rnd 1 == 1)%Q.
Hypothesis rnd_100 : (rnd 100 == 100)%Q.

Lemma int_floor (x : Q) : (0 <= x)%Q → int x = Qfloor x.
Proof.
  destruct x as [n d]. unfold Qle, int, Qfloor; simpl. intros H.
  apply Z.quot_div_nonneg; lia.
Qed.

Lemma quotient_mono (i j t : nat) :
  i ≤ j →
  (inject_Z (Z.of_nat i) / inject_Z (Z.of_nat t) <=
   inject_Z (Z.of_nat j) / inject_Z (Z.of_nat t))%Q.
Proof.
  intros H. unfold Qdiv. apply Qmult_le_compat_r.
  - rewrite <-Zle_Qle. lia.
  - apply Qinv_le_0_compat. replace 0%Q with (inject_Z 0) by done.
    rewrite <-Zle_Qle. lia.
Qed.

Lemma quotient_le_1 (i t : nat) :
  i < t → (inject_Z (Z.of_nat i) / inject_Z (Z.of_nat t) <= 1)%Q.
Proof.
  intros H. apply Qle_shift_div_r.
  - replace 0%Q with (inject_Z 0) by done. rewrite <-Zlt_Qlt. lia.
  - rewrite Qmult_1_l, <-Zle_Qle. lia.
Qed.

Lemma quotient_0 (t : nat) :
  (inject_Z (Z.of_nat 0) / inject_Z (Z.of_nat t) == 0)%Q.
Proof. unfold Qdiv. simpl. apply Qmult_0_l. Qed.

Lemma rnd_proper (x y : Q) : (x == y)%Q → (rnd x == rnd y)%Q.
Proof using rnd_mono.
  intros E. apply Qle_antisym; apply rnd_mono; rewrite E; apply Qle_refl.
Qed.

(** The float whose integer part is the percentage. *)
Lemma scaled_mono (i j t : nat) :
  i ≤ j →
  (rnd (rnd (inject_Z (Z.of_nat i) / inject_Z (Z.of_nat t)) * 100) <=
   rnd (rnd (inject_Z (Z.of_nat j) / inject_Z (Z.of_nat t)) * 100))%Q.
Proof using rnd_mono.
  intros H. apply rnd_mono, Qmult_le_compat_r; [|done].
  by apply rnd_mono, quotient_mono.
Qed.

Lemma scaled_0 (t : nat) :
  (rnd (rnd (inject_Z (Z.of_nat 0) / inject_Z (Z.of_nat t)) * 100) == 0)%Q.
Proof using rnd_mono rnd_0.
  transitivity (rnd 0); [apply rnd_proper|exact rnd_0].
  rewrite (rnd_proper _ _ (quotient_0 t)), rnd_0. apply Qmult_0_l.
Qed.

Lemma scaled_le_100 (i t : nat) :
  i < t →
  (rnd (rnd (inject_Z (Z.of_nat i) / inject_Z (Z.of_nat t)) * 100) <= 100)%Q.
Proof using rnd_mono rnd_1 rnd_100.
  intros H. eapply Qle_trans; [|apply Qle_lteq; right; exact rnd_100].
  apply rnd_mono.
  pose proof (rnd_mono _ _ (quotient_le_1 i t H)) as H1.
  rewrite rnd_1 in H1. lra.
Qed.

Lemma scaled_nonneg (i t : nat) :
  (0 <= rnd (rnd (inject_Z (Z.of_nat i) / inject_Z (Z.of_nat t)) * 100))%Q.
Proof using rnd_mono rnd_0. rewrite <-(scaled_0 t). apply scaled_mono. lia. Qed.

Lemma percent_0 (t : nat) : percent 0 t = 0%Z.
Proof using rnd_mono rnd_0.
  unfold percent. rewrite int_floor by apply scaled_nonneg.
  by rewrite (Qfloor_comp _ _ (scaled_0 t)).
Qed.

Lemma percent_mono (i j t : nat) :
  i ≤ j → (percent i t ≤ percent j t)%Z.
Proof using rnd_mono rnd_0.
  intros H. unfold percent. rewrite !int_floor by apply scaled_nonneg.
  by apply Qfloor_resp_le, scaled_mono.
Qed.

Lemma percent_range (i t : nat) : i < t → (0 ≤ percent i t ≤ 100)%Z.
Proof using rnd_mono rnd_0 rnd_1 rnd_100.
  intros H. split.
  - rewrite <-(percent_0 t). apply percent_mono. lia.
  - unfold percent. rewrite int_floor by apply scaled_nonneg.
    rewrite <-(Qfloor_Z 100). by apply Qfloor_resp_le, scaled_le_100.
Qed.

(** The loop emits one value per item it reaches, [int((j/total)*100)]
    for the [j]-th, and reaches every item unless a symbol raises. *)
Lemma run_loop_progress (total i : nat) items pm0 :
  ∃ n, n ≤ length items ∧
       (run_loop total i items pm0).1 = (λ j, percent j total) <$> seq i n ∧
       (items ≠ [] → 0 < n) ∧
       (is_Some (run_loop total i items pm0).2 → n = length items).
Proof.
  revert i pm0. induction items as [|[e prons] rest IH]; intros i pm0; simpl.
  - exists 0. by split_and!.
  - destruct (add_prons e prons pm0) as [pm1|]; simpl.
    + destruct (IH (S i) pm1) as (n & Hn & -> & _ & Hs).
      exists (S n). split_and!; [lia|done|lia|]. intros H. by rewrite Hs.
    + exists 1. split_and!; [lia|done|lia|]. by intros [? ?].
Qed.

Lemma percent_list_range (total i n : nat) :
  i + n ≤ total →
  Forall (λ p, (0 ≤ p ≤ 100)%Z) ((λ j, percent j total) <$> seq i n).
Proof using rnd_mono rnd_0 rnd_1 rnd_100.
  intros H. apply Forall_fmap, Forall_forall. intros j Hj.
  apply elem_of_seq in Hj. simpl. apply percent_range. lia.
Qed.

Lemma percent_list_sorted (total i n : nat) :
  StronglySorted Z.le ((λ j, percent j total) <$> seq i n).
Proof using rnd_mono rnd_0.
  revert i. induction n as [|n IH]; intros i; simpl; constructor; [done|].
  apply Forall_fmap, Forall_forall. intros j Hj.
  apply elem_of_seq in Hj. simpl. apply percent_mono. lia.
Qed.

(** C5 (amended). The progress values are integers in [0, 100] and never
    decrease; the first is [0]; a build that finishes has emitted
    [int((j/n)*100)] for [j = 0 .. n-1], [n] the number of words, so
    its last value is [int(((n-1)/n)*100)], not [100], and an empty
    dictionary emits none. *)
Theorem progress_values cmu_dict :
  let ps := (run cmu_dict).1 in
  let n := size cmu_dict in
  Forall (λ p, (0 ≤ p ≤ 100)%Z) ps ∧
  StronglySorted Z.le ps ∧
  (cmu_dict ≠ ∅ → head ps = Some 0%Z) ∧
  (cmu_dict = ∅ → ps = []) ∧
  (is_Some (run cmu_dict).2 →
     ps = (λ j, percent j n) <$> seq 0 n ∧
     (cmu_dict ≠ ∅ → last ps = Some (percent (n - 1) n))).
Proof using rnd_mono rnd_0 rnd_1 rnd_100.
  unfold run. simpl.
  destruct (run_loop_progress (size cmu_dict) 0 (map_to_list cmu_dict) ∅)
    as (m & Hm & -> & Hpos & Hall).
  rewrite length_map_to_list in Hm, Hall. split_and!.
  - apply percent_list_range. lia.
  - apply percent_list_sorted.
  - intros Hne. rewrite <-map_to_list_empty_iff in Hne.
    specialize (Hpos Hne). destruct m as [|m]; [lia|]. simpl.
    by rewrite percent_0.
  - intros ->. rewrite map_size_empty in Hm.
    by replace m with 0 by lia.
  - intros Hs. rewrite (Hall Hs). split; [done|].
    intros Hne%map_size_non_empty_iff.
    destruct (size cmu_dict) as [|n]; [done|].
    rewrite seq_S, fmap_app. simpl (_ <$> [_]). rewrite last_snoc.
    do 2 f_equal. lia.
Qed.


(** Whatever the rounding, a one-word dictionary makes the build emit [0]
    alone: [0/1] and [0.0*100] are exact. *)
Lemma progress_one_word cmu_dict :
  size cmu_dict = 1 → (run cmu_dict).1 = [0%Z].
Proof using rnd_mono rnd_0.
  intros Hsize. unfold run.
  destruct (run_loop_progress (size cmu_dict) 0 (map_to_list cmu_dict) ∅)
    as (m & Hm & -> & Hpos & _).
  rewrite length_map_to_list, Hsize in Hm.
  assert (map_to_list cmu_dict ≠ []) as Hne.
  { intros E. apply (f_equal length) in E.
    rewrite length_map_to_list, Hsize in E. done. }
  specialize (Hpos Hne). replace m with 1 by lia. simpl.
  by rewrite percent_0.
Qed.

End Progress.

(** ** What the search emits *)

Lemma elem_of_limited w l x : x ∈ limited w l → x ∈ l.
Proof.
  unfold limited. case_bool_decide; [|done]. apply subseteq_take.
Qed.

Lemma elem_of_surviving cmu_dict w x :
  x ∈ surviving cmu_dict w ↔
  ∃ ts, mapM clean (target_prons cmu_dict w) = Some ts ∧
        keeps w x ∧ x ∈ candidates w ts.
Proof.
  clear rnd. unfold surviving.
  destruct (mapM clean (target_prons cmu_dict w)) as [ts|]; simpl.
  - unfold survivors. rewrite elem_of_filter. naive_solver.
  - split; [by intros ?%not_elem_of_empty|by intros (? & ? & _)].
Qed.

Lemma finished_emit_elem_of cmu_dict w out x :
  finished_emit cmu_dict w out → x ∈ out → x ∈ surviving cmu_dict w.
Proof.
  intros ->%finished_emit_ranked ?%elem_of_limited.
  by rewrite sorted_words_perm, elem_of_elements in *.
Qed.

(** ** The claims *)

(** C9. Two searches with the same request against the same index and
    dictionary emit the same list, whatever order the two sets of
    [process] were visited in. *)
Theorem search_deterministic cmu_dict w out1 out2 :
  finished_emit cmu_dict w out1 →
  finished_emit cmu_dict w out2 →
  out1 = out2.
Proof.
  rewrite !finished_emit_process. congruence.
Qed.

(** C10. The query is case-insensitive: a worker made for [q] and one made
    for the lowercased [q] are the same worker, so they emit the same. *)
Theorem query_case_insensitive cmu_dict (q : string) pm acc mz mr uf :
  process cmu_dict (HomophoneWorker_init q pm acc mz mr uf) =
  process cmu_dict (HomophoneWorker_init (lower q) pm acc mz mr uf) ∧
  ∀ out,
    finished_emit cmu_dict (HomophoneWorker_init q pm acc mz mr uf) out ↔
    finished_emit cmu_dict (HomophoneWorker_init (lower q) pm acc mz mr uf) out.
Proof.
  unfold HomophoneWorker_init. by rewrite lower_idemp.
Qed.

Lemma matched_subseteq (w1 w2 : HomophoneWorker) ts :
  phoneme_map w1 = phoneme_map w2 →
  (accuracy w1 ≤ accuracy w2)%Z →
  matched w2 ts ⊆ matched w1 ts.
Proof.
  intros Hpm Hacc c. rewrite !elem_of_matched, Hpm.
  intros [Hc (seq & Hseq & Hs)]. split; [done|]. exists seq. split; [done|].
  unfold scores in *. apply bool_decide_unpack in Hs.
  apply bool_decide_pack. lia.
Qed.

(** C4. Raising the threshold never adds a matched sequence: at
    thresholds [t1 ≤ t2] over the same index and query sequences, the set
    matched at [t2] is included in the set matched at [t1], and is no
    larger. *)
Theorem matched_antitone (w1 w2 : HomophoneWorker) ts :
  phoneme_map w1 = phoneme_map w2 →
  (accuracy w1 ≤ accuracy w2)%Z →
  matched w2 ts ⊆ matched w1 ts ∧
  size (matched w2 ts) ≤ size (matched w1 ts).
Proof.
  intros Hpm Hacc. split; [by apply matched_subseteq|].
  by apply subseteq_size, matched_subseteq.
Qed.

(** Raising the threshold never adds a candidate word either. *)
Lemma candidates_antitone (w1 w2 : HomophoneWorker) ts :
  phoneme_map w1 = phoneme_map w2 →
  (accuracy w1 ≤ accuracy w2)%Z →
  candidates w2 ts ⊆ candidates w1 ts.
Proof.
  intros Hpm Hacc x. rewrite !candidates_matched.
  intros (c & Hc & Hx). exists c.
  split; [by apply (matched_subseteq w1 w2)|]. by rewrite Hpm.
Qed.

(** C2. The emitted list is the ranking of the surviving words, each
    once, by descending frequency and then ascending spelling, cut to its
    first [max_results] elements when [max_results > 0] (so it is no
    longer than that and every word left out ranks strictly after every
    word kept) and whole when [max_results = 0]. *)
Theorem ranked_then_cut cmu_dict w out :
  finished_emit cmu_dict w out →
  ∃ ranked,
    NoDup ranked ∧
    (∀ x, x ∈ ranked ↔ x ∈ surviving cmu_dict w) ∧
    StronglySorted ranks_before ranked ∧
    ((0 < max_results w)%Z →
       out = take (Z.to_nat (max_results w)) ranked ∧
       (Z.of_nat (length out) ≤ max_results w)%Z ∧
       ∀ x y, x ∈ out → y ∈ ranked → y ∉ out → ranks_strictly_before x y) ∧
    (max_results w = 0%Z → out = ranked).
Proof.
  intros ->%finished_emit_ranked.
  set (ranked := sorted_words (elements (surviving cmu_dict w))).
  assert (ranked ≡ₚ elements (surviving cmu_dict w)) as Hperm
    by apply sorted_words_perm.
  assert (StronglySorted ranks_before ranked) as Hsorted
    by apply sorted_words_sorted.
  exists ranked. split_and!.
  - rewrite Hperm. apply NoDup_elements.
  - intros x. by rewrite Hperm, elem_of_elements.
  - done.
  - intros Hcap. unfold limited. rewrite bool_decide_eq_true_2 by done.
    set (n := Z.to_nat (max_results w)). split_and!; [done| |].
    + rewrite length_take. lia.
    + intros x y Hx Hy Hny.
      rewrite <-(take_drop n ranked) in Hy, Hsorted.
      apply elem_of_app in Hy as [?|Hy]; [done|].
      apply StronglySorted_app in Hsorted as (Hcross & _ & _).
      split; [by apply Hcross|]. intros Hyx.
      assert (x = y) as -> by (apply (anti_symm ranks_before); auto).
      done.
  - intros Hcap. unfold limited. by rewrite bool_decide_eq_false_2 by lia.
Qed.

(** With the filter on, every emitted word reaches the threshold. *)
Lemma filter_on_threshold cmu_dict w out x :
  use_freq_filter w = true →
  finished_emit cmu_dict w out → x ∈ out →
  (min_zipf w <= zipf_frequency x)%Q.
Proof.
  intros Hon Hout Hx.
  apply (finished_emit_elem_of _ _ _ _ Hout), elem_of_surviving in Hx
    as (ts & _ & Hk & _).
  apply keeps_spec in Hk as [_ Hk]. auto.
Qed.

(** With the filter off, the threshold is not read. *)
Lemma filter_off_threshold cmu_dict w mz out :
  use_freq_filter w = false →
  finished_emit cmu_dict w out →
  finished_emit cmu_dict (with_min_zipf mz w) out.
Proof.
  intros Hoff.
  assert (∀ cs, valid (with_min_zipf mz w) cs = valid w cs) as Hv.
  { intros cs. unfold valid. apply list_filter_iff. intros x.
    unfold keeps; simpl. by rewrite Hoff. }
  intros [E|ts cs u Hne Hts Hcs Hu].
  - by apply emit_unknown.
  - apply (emit_ranked cmu_dict (with_min_zipf mz w) ts cs u); [done..|].
    by rewrite Hv.
Qed.

(** With the filter off, a candidate is left out only for being the
    query word. *)
Lemma filter_off_surviving cmu_dict w ts x :
  use_freq_filter w = false →
  mapM clean (target_prons cmu_dict w) = Some ts →
  x ∈ surviving cmu_dict w ↔ x ∈ candidates w ts ∧ x ≠ word w.
Proof.
  clear rnd. intros Hoff Hts. rewrite elem_of_surviving, Hts.
  setoid_rewrite keeps_spec. rewrite Hoff. naive_solver.
Qed.

(** C6 (amended). A query word without an entry makes the search emit the
    empty list, which is also all it emits for a word that is known while
    nothing survives the thresholds: the two outcomes carry no tag that
    tells them apart. *)
Theorem unknown_word_emits_nil cmu_dict w :
  cmu_dict !! word w = None →
  process cmu_dict w = Some [] ∧
  (∀ out, finished_emit cmu_dict w out → out = []) ∧
  (∀ w' out', surviving cmu_dict w' = ∅ →
              finished_emit cmu_dict w' out' → out' = []).
Proof.
  intros Hw.
  assert (process cmu_dict w = Some []) as Hp.
  { unfold process, target_prons. by rewrite Hw. }
  split_and!; [done| |].
  - intros out Hout%finished_emit_process. congruence.
  - intros w' out' Hs ->%finished_emit_ranked.
    rewrite Hs, elements_empty. apply limited_nil.
Qed.

(** C7 (amended). In the built index a word occurs under a key once for
    every pronunciation variant, of every entry that lowercases to the
    word, that normalizes to the key; the list under a key has no
    repetition exactly when no word has two such variants. *)
Theorem index_word_multiplicity cmu_dict ps pm :
  run cmu_dict = (ps, Some pm) →
  ∀ k (w : string),
    occurrences w (pm !!! k) = variants_at k w (map_to_list cmu_dict) ∧
    (NoDup (pm !!! k) ↔
     ∀ w' : string, variants_at k w' (map_to_list cmu_dict) ≤ 1).
Proof.
  intros H k w. split; [by apply (run_occurrences _ ps)|].
  rewrite NoDup_occurrences.
  by setoid_rewrite (run_occurrences _ _ _ k _ H).
Qed.

Section Reflexive.

(** [fuzz.ratio] gives equal strings the full score. *)
Hypothesis ratio_same : ∀ s : string, (100 ≤ ratio s s)%Z.

(** C1. For a query word with a non-empty entry, searched over the index
    built from the dictionary.  At threshold 100 every normalized
    pronunciation of the word is matched: it is among the matched
    sequences, the index files the word under it, and every word filed
    under it is collected by [process] as a candidate, the query word
    included.  Whatever the threshold, no emitted word equals the query
    word up to case; at threshold 100 every other word filed under one of
    the word's pronunciations is emitted, when the frequency filter lets it
    through and the results are not capped. *)
Theorem own_sequences_matched_self_excluded
    cmu_dict ps pm (q : string) prons acc mz mr uf :
  run cmu_dict = (ps, Some pm) →
  cmu_dict !! lower q = Some prons →
  prons ≠ [] →
  ∃ ts,
    mapM clean prons = Some ts ∧ ts ≠ [] ∧
    (∀ seq, seq ∈ ts →
       seq ∈ matched (HomophoneWorker_init q pm 100 mz mr uf) ts ∧
       lower q ∈ pm !!! seq ∧
       ∀ x, x ∈ pm !!! seq →
            x ∈ candidates (HomophoneWorker_init q pm 100 mz mr uf) ts) ∧
    lower q ∈ candidates (HomophoneWorker_init q pm 100 mz mr uf) ts ∧
    (∀ out x,
       finished_emit cmu_dict (HomophoneWorker_init q pm acc mz mr uf) out →
       x ∈ out → lower x ≠ lower q) ∧
    (∀ out seq x,
       finished_emit cmu_dict (HomophoneWorker_init q pm 100 mz mr uf) out →
       seq ∈ ts → x ∈ pm !!! seq → x ≠ lower q →
       (uf = true → (mz <= zipf_frequency x)%Q) → (mr ≤ 0)%Z →
       x ∈ out).
Proof using ratio_same.
  intros Hrun Hq Hne.
  assert (is_Some (mapM clean prons)) as [ts Hts].
  { apply mapM_is_Some.
    assert (is_Some (run cmu_dict).2) as Hwf by (rewrite Hrun; by eexists).
    apply run_is_Some in Hwf. specialize (Hwf _ _ Hq).
    eapply Forall_impl; [exact Hwf|]. intros pron. by rewrite <-clean_is_Some. }
  pose proof (proj1 (mapM_Some _ _ _) Hts) as Hall.
  assert (ts ≠ []) as Hts_ne
    by (intros ->; by apply Forall2_nil_inv_r in Hall).
  assert (∀ seq, seq ∈ ts → lower q ∈ pm !!! seq) as Hfiled.
  { intros seq Hseq. apply list_elem_of_lookup in Hseq as [i Hi].
    destruct (Forall2_lookup_r _ _ _ _ _ Hall Hi) as (pron & Hpron & Hc).
    rewrite <-(lower_idemp q).
    apply (run_elem_of _ _ _ _ _ Hrun). exists (lower q), prons, pron.
    split_and!; [done..| |done]. by eapply list_elem_of_lookup_2. }
  assert (∀ seq, seq ∈ ts →
            scores (HomophoneWorker_init q pm 100 mz mr uf) seq seq)
    as Hsame.
  { intros seq _. unfold scores. simpl. apply bool_decide_pack, ratio_same. }
  assert (∀ seq x, seq ∈ ts → x ∈ pm !!! seq →
            x ∈ candidates (HomophoneWorker_init q pm 100 mz mr uf) ts)
    as Hcollected.
  { intros seq x Hseq Hx. apply elem_of_candidates. exists seq, seq. simpl.
    split_and!; [done| |by apply Hsame|done].
    by eapply lookup_total_elem_of_dom. }
  exists ts. split_and!; [done|done| | | |].
  - intros seq Hseq. split_and!; [|by apply Hfiled|by eauto].
    apply elem_of_matched. simpl.
    split; [by eapply lookup_total_elem_of_dom, Hfiled|].
    exists seq. split; [done|by apply Hsame].
  - destruct ts as [|seq ts']; [done|].
    apply (Hcollected seq); [by left|]. apply Hfiled. by left.
  - intros out x Hout Hx.
    apply (finished_emit_elem_of _ _ _ _ Hout), elem_of_surviving in Hx
      as (ts' & _ & Hk & Hc).
    apply keeps_spec in Hk as [Hk _]. simpl in Hk.
    apply elem_of_candidates in Hc as (_ & c & _ & _ & _ & Hc). simpl in Hc.
    apply (run_elem_of _ _ _ _ _ Hrun) in Hc as (e & _ & _ & _ & <- & _).
    by rewrite lower_idemp.
  - intros out seq x Hout Hseq Hx Hself Hfreq Hcap.
    rewrite (finished_emit_ranked _ _ _ Hout). unfold limited. simpl.
    rewrite bool_decide_false by lia.
    rewrite sorted_words_perm, elem_of_elements, elem_of_surviving.
    exists ts. split_and!.
    + unfold target_prons. simpl. by rewrite Hq.
    + apply keeps_spec. by simpl.
    + by apply (Hcollected seq).
Qed.

End Reflexive.

(** ** Further properties: normalization *)

Lemma append_cons (c : ascii) (s t : string) :
  String c s +:+ t = String c (s +:+ t).
Proof. done. Qed.

Lemma last_char_snoc (s : string) (c : ascii) :
  last_char (s +:+ String c "") = Some c.
Proof.
  induction s as [|a s IH]; [done|]. rewrite append_cons. simpl.
  rewrite IH. by destruct s.
Qed.

Lemma drop_last_snoc (s : string) (c : ascii) :
  drop_last (s +:+ String c "") = s.
Proof.
  induction s as [|a s IH]; [done|]. rewrite append_cons. simpl.
  rewrite IH. by destruct s.
Qed.

Lemma strip_stress_digit (s : string) (d : ascii) :
  isdigit d = true → strip_stress (s +:+ String d "") = Some s.
Proof.
  intros Hd. unfold strip_stress.
  by rewrite last_char_snoc; simpl; rewrite Hd, drop_last_snoc.
Qed.

Lemma clean_None pron : clean pron = None ↔ "" ∈ pron.
Proof.
  rewrite eq_None_not_Some, clean_is_Some, <-Exists_Forall_neg, Exists_exists
    by (intros p; destruct (decide (p = "")); auto).
  split.
  - intros (p & Hp & Hne). destruct (decide (p = "")) as [->|]; [done|].
    by destruct Hne.
  - intros H. exists "". split; [done|]. by intros [].
Qed.

(** X2. Normalizing a pronunciation raises exactly when one of its symbols
    is empty, and otherwise returns as many symbols as it was given. *)
Theorem clean_fails_or_keeps_length pron :
  (clean pron = None ↔ "" ∈ pron) ∧
  (∀ k, clean pron = Some k → length k = length pron).
Proof.
  split; [apply clean_None|].
  intros k Hk. apply mapM_Some in Hk. symmetry. by eapply Forall2_length.
Qed.

Lemma same_but_stress_strip p q :
  same_but_stress p q → ∃ s, strip_stress p = Some s ∧ strip_stress q = Some s.
Proof.
  intros [[-> Hne]|(s & d1 & d2 & H1 & H2 & -> & ->)].
  - by apply strip_stress_is_Some in Hne as [s ->]; exists s.
  - exists s. split; by apply strip_stress_digit.
Qed.

(** X3. Two pronunciations that agree symbol by symbol up to the stress
    digit normalize to the same key of the index. *)
Theorem stress_variants_share_key pron1 pron2 :
  Forall2 same_but_stress pron1 pron2 →
  ∃ k, clean pron1 = Some k ∧ clean pron2 = Some k.
Proof.
  unfold clean. induction 1 as [|p q pron1 pron2 Hpq _ (k & H1 & H2)].
  - by exists [].
  - destruct (same_but_stress_strip _ _ Hpq) as (s & Hp & Hq).
    exists (s :: k). simpl. rewrite Hp, Hq. simpl. by rewrite H1, H2.
Qed.

(** ** Further properties: the built index *)

Lemma append_word_nonempty (c : list string) (w : string) pm :
  (∀ k l, pm !! k = Some l → l ≠ []) →
  ∀ k l, append_word c w pm !! k = Some l → l ≠ [].
Proof.
  intros H k l. unfold append_word.
  destruct (decide (c = k)) as [->|Hne].
  - rewrite lookup_insert_eq. intros [= <-]. by destruct (pm !!! k).
  - rewrite lookup_insert_ne by done. apply H.
Qed.

Lemma add_prons_nonempty e prons pm0 pm :
  (∀ k l, pm0 !! k = Some l → l ≠ []) →
  add_prons e prons pm0 = Some pm →
  ∀ k l, pm !! k = Some l → l ≠ [].
Proof.
  revert pm0. induction prons as [|pron rest IH]; intros pm0 H0; simpl.
  - by intros [= <-].
  - destruct (clean pron) as [c|]; [simpl|done]. intros H.
    eapply IH; [|exact H]. by apply append_word_nonempty.
Qed.

Lemma run_loop_nonempty (total i : nat) items pm0 pm ps :
  (∀ k l, pm0 !! k = Some l → l ≠ []) →
  run_loop total i items pm0 = (ps, Some pm) →
  ∀ k l, pm !! k = Some l → l ≠ [].
Proof.
  revert i pm0 ps. induction items as [|[e prons] rest IH]; intros i pm0 ps H0.
  - by intros [= _ <-].
  - simpl. destruct (add_prons e prons pm0) as [pm1|] eqn:H1; [|done].
    destruct (run_loop total (S i) rest pm1) as [ps' r] eqn:H2. simpl.
    intros [= _ ->]. eapply IH; [|exact H2]. by eapply add_prons_nonempty.
Qed.

Lemma stored_words_insert_fresh (c : list string) (l : list string) pm :
  pm !! c = None → stored_words (<[c := l]> pm) = length l + stored_words pm.
Proof.
  intros H. unfold stored_words. by rewrite map_to_list_insert.
Qed.

Lemma stored_words_append_word (c : list string) (w : string) pm :
  stored_words (append_word c w pm) = S (stored_words pm).
Proof.
  unfold append_word. rewrite lookup_total_alt.
  destruct (pm !! c) as [l|] eqn:Hc; simpl.
  - rewrite <-insert_delete_eq.
    rewrite <-(insert_delete_id pm c l) at 2 by done.
    rewrite !stored_words_insert_fresh by apply lookup_delete_eq.
    rewrite length_app. simpl. lia.
  - by rewrite stored_words_insert_fresh.
Qed.

Lemma add_prons_stored_words e prons pm0 pm :
  add_prons e prons pm0 = Some pm →
  stored_words pm = stored_words pm0 + length prons.
Proof.
  revert pm0. induction prons as [|pron rest IH]; intros pm0; simpl.
  - intros [= <-]. lia.
  - destruct (clean pron) as [c|]; [simpl|done]. intros H.
    rewrite (IH _ H), stored_words_append_word. lia.
Qed.

Lemma run_loop_stored_words (total i : nat) items pm0 pm ps :
  run_loop total i items pm0 = (ps, Some pm) →
  stored_words pm =
  stored_words pm0 + sum_list ((λ it, length it.2) <$> items).
Proof.
  revert i pm0 ps. induction items as [|[e prons] rest IH]; intros i pm0 ps.
  - intros [= _ <-]. simpl. lia.
  - simpl. destruct (add_prons e prons pm0) as [pm1|] eqn:H1; [|done].
    destruct (run_loop total (S i) rest pm1) as [ps' r] eqn:H2. simpl.
    intros [= _ ->].
    rewrite (IH _ _ _ H2), (add_prons_stored_words _ _ _ _ H1).
    by rewrite <-Nat.add_assoc.
Qed.

Lemma size_le_stored_words pm :
  (∀ k l, pm !! k = Some l → l ≠ []) → size pm ≤ stored_words pm.
Proof.
  intros H. unfold stored_words. rewrite <-length_map_to_list.
  assert (Forall (λ kl, kl.2 ≠ []) (map_to_list pm)) as Hall.
  { apply Forall_forall. intros [k l] Hkl. simpl.
    apply elem_of_map_to_list in Hkl. by eapply H. }
  induction Hall as [|[k l] rest Hl _ IH]; [done|].
  simpl in Hl. destruct l as [|w l]; [done|].
  change (S (length rest) ≤
          S (length l) + sum_list (length <$> rest.*2)). lia.
Qed.

(** X4. The build finishes, and emits [finished], exactly when no phoneme
    symbol of the dictionary is empty; when it raises it has emitted at
    least one progress value and at most one per word. *)
Theorem build_finishes_iff_well_formed cmu_dict :
  (is_Some (run cmu_dict).2 ↔ well_formed cmu_dict) ∧
  (¬ well_formed cmu_dict →
   0 < length (run cmu_dict).1 ≤ size cmu_dict).
Proof.
  split; [apply run_is_Some|]. intros Hwf.
  assert (map_to_list cmu_dict ≠ []) as Hne.
  { rewrite map_to_list_empty_iff. intros ->. apply Hwf.
    intros e prons He. by rewrite lookup_empty in He. }
  unfold run.
  destruct (run_loop_progress (size cmu_dict) 0 (map_to_list cmu_dict) ∅)
    as (n & Hn & -> & Hpos & _).
  rewrite length_map_to_list in Hn.
  rewrite length_fmap, length_seq. specialize (Hpos Hne). lia.
Qed.

(** X5. Looking up the built index: a word is stored under a key exactly
    when it is the lowercased form of a dictionary entry that has a
    pronunciation normalizing to the key; the keys are exactly the
    normalized pronunciations, none with an empty word list; and every
    stored word is lowercase. *)
Theorem built_index_lookup cmu_dict ps pm :
  run cmu_dict = (ps, Some pm) →
  (∀ k (w : string),
     w ∈ pm !!! k ↔
     ∃ e prons pron, cmu_dict !! e = Some prons ∧ lower e = w ∧
                     pron ∈ prons ∧ clean pron = Some k) ∧
  (∀ k, k ∈ dom pm ↔
        ∃ e prons pron, cmu_dict !! e = Some prons ∧
                        pron ∈ prons ∧ clean pron = Some k) ∧
  (∀ k l, pm !! k = Some l → l ≠ []) ∧
  (∀ k (w : string), w ∈ pm !!! k → lower w = w).
Proof.
  intros H.
  assert (∀ k l, pm !! k = Some l → l ≠ []) as Hne.
  { eapply run_loop_nonempty; [|exact H]. intros k l. by rewrite lookup_empty. }
  split_and!.
  - intros k w. by apply (run_elem_of _ ps).
  - intros k. split.
    + intros [l Hl]%elem_of_dom. pose proof (Hne _ _ Hl) as Hl'.
      destruct l as [|w l]; [done|].
      assert (w ∈ pm !!! k) as Hw by (rewrite lookup_total_alt, Hl; left).
      apply (run_elem_of _ _ _ _ _ H) in Hw as (e & prons & pron & ? & _ & ? & ?).
      by exists e, prons, pron.
    + intros (e & prons & pron & He & Hin & Hc).
      apply (lookup_total_elem_of_dom _ _ (lower e)).
      apply (run_elem_of _ _ _ _ _ H). by exists e, prons, pron.
  - done.
  - intros k w Hw.
    apply (run_elem_of _ _ _ _ _ H) in Hw as (e & _ & _ & _ & <- & _).
    apply lower_idemp.
Qed.

(** X6. The built index stores one word per pronunciation variant of the
    dictionary, no more and no fewer, so it has at most that many keys. *)
Theorem built_index_conserves_variants cmu_dict ps pm :
  run cmu_dict = (ps, Some pm) →
  stored_words pm = total_variants cmu_dict ∧
  size pm ≤ total_variants cmu_dict.
Proof.
  intros H.
  assert (stored_words pm = total_variants cmu_dict) as Hs.
  { rewrite (run_loop_stored_words _ _ _ _ _ _ H). unfold stored_words.
    by rewrite map_to_list_empty. }
  split; [done|]. rewrite <-Hs. apply size_le_stored_words.
  eapply run_loop_nonempty; [|exact H]. intros k l. by rewrite lookup_empty.
Qed.

(** ** Further properties: the search *)

Lemma mapM_clean_None prons :
  mapM clean prons = None ↔ ∃ pron, pron ∈ prons ∧ "" ∈ pron.
Proof.
  rewrite mapM_None, Exists_exists. by setoid_rewrite clean_None.
Qed.

(** X7. The search raises, and emits nothing, exactly when a pronunciation
    of the query word's own entry has an empty symbol; in every other case
    it emits a list. *)
Theorem process_raises_iff cmu_dict w :
  (process cmu_dict w = None ↔
   ∃ pron, pron ∈ target_prons cmu_dict w ∧ "" ∈ pron) ∧
  ((∃ out, finished_emit cmu_dict w out) ↔ is_Some (process cmu_dict w)).
Proof.
  split.
  - unfold process. case_bool_decide as E.
    + rewrite E. split; [done|]. by intros (pron & ?%elem_of_nil & _).
    + rewrite <-mapM_clean_None.
      by destruct (mapM clean (target_prons cmu_dict w)).
  - setoid_rewrite finished_emit_process. split.
    + intros [out ->]. by eexists.
    + intros [out ->]. by eexists.
Qed.

(** X8. The candidates of a query with several pronunciations are the
    union of the candidates of each: no pronunciation yields none, pieces
    of the list add up, and neither the order nor a repetition of the
    target sequences matters. *)
Theorem candidates_merge w ts1 ts2 :
  candidates w [] = ∅ ∧
  candidates w (ts1 ++ ts2) = candidates w ts1 ∪ candidates w ts2 ∧
  ((∀ seq, seq ∈ ts1 ↔ seq ∈ ts2) → candidates w ts1 = candidates w ts2).
Proof.
  clear zipf_frequency rnd. split_and!.
  - done.
  - apply set_eq. intros x.
    rewrite elem_of_union, !elem_of_candidates.
    setoid_rewrite elem_of_app. naive_solver.
  - intros H. apply set_eq. intros x. rewrite !elem_of_candidates.
    by setoid_rewrite H.
Qed.

Lemma NoDup_limited w l : NoDup l → NoDup (limited w l).
Proof.
  unfold limited. case_bool_decide; [|done].
  intros Hl. eapply sublist_NoDup; [done|apply sublist_take].
Qed.

(** X9. Whatever index the worker holds, the emitted list has no
    repetition, never holds the worker's own word, and holds only words
    stored in the index under a matched sequence. *)
Theorem emitted_words_from_index cmu_dict w out :
  finished_emit cmu_dict w out →
  NoDup out ∧ (word w ∉ out) ∧
  ∀ x, x ∈ out →
       ∃ ts k, mapM clean (target_prons cmu_dict w) = Some ts ∧
               k ∈ matched w ts ∧ x ∈ phoneme_map w !!! k.
Proof.
  intros Hout. split_and!.
  - apply finished_emit_ranked in Hout as ->. apply NoDup_limited.
    rewrite sorted_words_perm. apply NoDup_elements.
  - intros Hin.
    apply (finished_emit_elem_of _ _ _ _ Hout), elem_of_surviving in Hin
      as (ts & _ & Hk & _).
    by apply keeps_spec in Hk as [Hk _].
  - intros x Hin.
    apply (finished_emit_elem_of _ _ _ _ Hout), elem_of_surviving in Hin
      as (ts & Hts & _ & Hc).
    apply candidates_matched in Hc as (k & ? & ?). by exists ts, k.
Qed.

Lemma elem_of_uncapped cmu_dict w out x :
  (max_results w ≤ 0)%Z → finished_emit cmu_dict w out →
  x ∈ out ↔ x ∈ surviving cmu_dict w.
Proof.
  intros Hcap ->%finished_emit_ranked. unfold limited.
  rewrite bool_decide_eq_false_2 by lia.
  by rewrite sorted_words_perm, elem_of_elements.
Qed.

(** X10. The cap only cuts: with [max_results = k > 0] the emitted list is
    the first [k] words of the list emitted without a cap, and a negative
    [max_results] leaves the list whole like [0]. *)
Theorem cap_takes_prefix cmu_dict w (mr : Z) out full :
  finished_emit cmu_dict (with_max_results mr w) out →
  finished_emit cmu_dict (with_max_results 0 w) full →
  out = (if bool_decide (0 < mr)%Z then take (Z.to_nat mr) full else full) ∧
  out `prefix_of` full.
Proof.
  intros ->%finished_emit_ranked ->%finished_emit_ranked.
  change (surviving cmu_dict (with_max_results mr w))
    with (surviving cmu_dict w).
  change (surviving cmu_dict (with_max_results 0 w))
    with (surviving cmu_dict w).
  unfold limited. simpl.
  case_bool_decide; (split; [done|]); [apply prefix_take|done].
Qed.

Lemma StronglySorted_filter_keeps {A} (R : relation A) (P : A → Prop)
    `{∀ a, Decision (P a)} (l : list A) :
  StronglySorted R l → StronglySorted R (filter P l).
Proof.
  induction 1 as [|x l _ IH Hx]; [constructor|].
  rewrite filter_cons. case_decide; [|done]. constructor; [done|].
  apply Forall_forall. intros y [_ Hy]%list_elem_of_filter.
  rewrite Forall_forall in Hx. auto.
Qed.

(** X11. Tightening a request only removes words: for two workers on the
    same word and index with the same filter flag, a threshold and a
    minimum frequency at least as high leave a subset of the surviving
    words, and without a cap the second list is the first one with some
    words taken out, the others in their order. *)
Theorem tightening_only_removes cmu_dict (w1 w2 : HomophoneWorker) out1 out2 :
  word w1 = word w2 → phoneme_map w1 = phoneme_map w2 →
  use_freq_filter w1 = use_freq_filter w2 →
  (accuracy w1 ≤ accuracy w2)%Z → (min_zipf w1 <= min_zipf w2)%Q →
  (max_results w1 ≤ 0)%Z → (max_results w2 ≤ 0)%Z →
  finished_emit cmu_dict w1 out1 → finished_emit cmu_dict w2 out2 →
  surviving cmu_dict w2 ⊆ surviving cmu_dict w1 ∧
  out2 `sublist_of` out1.
Proof.
  intros Hw Hpm Huf Hacc Hmz Hc1 Hc2 H1 H2.
  assert (surviving cmu_dict w2 ⊆ surviving cmu_dict w1) as Hsub.
  { clear rnd. intros x. rewrite !elem_of_surviving.
    unfold target_prons. rewrite Hw.
    intros (ts & Hts & Hk & Hc). exists ts. split_and!; [done| |].
    - apply keeps_spec in Hk as [Hne Hf]. apply keeps_spec.
      split; [by rewrite Hw|]. rewrite Huf. intros Hon.
      specialize (Hf Hon). lra.
    - by apply (candidates_antitone w1 w2). }
  split; [done|].
  assert (out2 = filter (λ x, x ∈ surviving cmu_dict w2) out1) as ->;
    [|apply sublist_filter].
  pose proof (finished_emit_ranked _ _ _ H1) as E1.
  pose proof (finished_emit_ranked _ _ _ H2) as E2.
  unfold limited in E1, E2.
  rewrite bool_decide_eq_false_2 in E1 by lia.
  rewrite bool_decide_eq_false_2 in E2 by lia.
  rewrite E2. apply sorted_words_unique.
  - apply NoDup_Permutation.
    + apply NoDup_filter. rewrite E1, sorted_words_perm. apply NoDup_elements.
    + apply NoDup_elements.
    + intros x. rewrite list_elem_of_filter, elem_of_elements.
      rewrite (elem_of_uncapped _ _ _ _ Hc1 H1). set_solver.
  - apply StronglySorted_filter_keeps. rewrite E1. apply sorted_words_sorted.
Qed.

Lemma run_clean_entry cmu_dict ps pm e prons :
  run cmu_dict = (ps, Some pm) → cmu_dict !! e = Some prons →
  ∃ ts, mapM clean prons = Some ts ∧
        (∀ pron k, pron ∈ prons → clean pron = Some k → k ∈ ts) ∧
        (∀ k, k ∈ ts → ∃ pron, pron ∈ prons ∧ clean pron = Some k).
Proof.
  intros Hrun He.
  assert (is_Some (mapM clean prons)) as [ts Hts].
  { apply mapM_is_Some.
    assert (is_Some (run cmu_dict).2) as Hwf by (rewrite Hrun; by eexists).
    apply run_is_Some in Hwf. specialize (Hwf _ _ He).
    eapply Forall_impl; [exact Hwf|]. intros pron. by rewrite <-clean_is_Some. }
  pose proof (proj1 (mapM_Some _ _ _) Hts) as Hall.
  exists ts. split_and!; [done| |].
  - intros pron k [i Hi]%list_elem_of_lookup Hk.
    destruct (Forall2_lookup_l _ _ _ _ _ Hall Hi) as (k' & Hk' & Hc).
    assert (k' = k) as -> by congruence. by eapply list_elem_of_lookup_2.
  - intros k [i Hi]%list_elem_of_lookup.
    destruct (Forall2_lookup_r _ _ _ _ _ Hall Hi) as (pron & Hp & Hc).
    exists pron. split; [by eapply list_elem_of_lookup_2|done].
Qed.

Section Homophones.

(** [fuzz.ratio] gives equal strings the full score. *)
Hypothesis ratio_same : ∀ s : string, (100 ≤ ratio s s)%Z.

(** X12. True homophones are found: over the built index and at any
    threshold up to 100, a word that shares a normalized pronunciation with
    the query word, is not the query word and passes the frequency filter
    survives the search, and is emitted when there is no cap. *)
Theorem exact_homophone_found
    cmu_dict ps pm (q e : string) prons prons' pron pron' k acc mz mr uf :
  run cmu_dict = (ps, Some pm) →
  cmu_dict !! lower q = Some prons → pron ∈ prons → clean pron = Some k →
  cmu_dict !! e = Some prons' → pron' ∈ prons' → clean pron' = Some k →
  lower e ≠ lower q →
  (acc ≤ 100)%Z →
  (uf = true → (mz <= zipf_frequency (lower e))%Q) →
  lower e ∈ surviving cmu_dict (HomophoneWorker_init q pm acc mz mr uf) ∧
  ((mr ≤ 0)%Z → ∀ out,
     finished_emit cmu_dict (HomophoneWorker_init q pm acc mz mr uf) out →
     lower e ∈ out).
Proof using ratio_same.
  intros Hrun Hq Hpron Hk He Hpron' Hk' Hne Hacc Hf.
  assert (lower e ∈
            surviving cmu_dict (HomophoneWorker_init q pm acc mz mr uf)) as Hs.
  { destruct (run_clean_entry _ _ _ _ _ Hrun Hq) as (ts & Hts & Hin & _).
    apply elem_of_surviving. exists ts. unfold target_prons. simpl.
    rewrite Hq. simpl. split_and!; [done| |].
    - apply keeps_spec. simpl. split; [done|]. done.
    - apply elem_of_candidates. exists k, k. simpl.
      assert (lower e ∈ pm !!! k) as Hw.
      { apply (run_elem_of _ _ _ _ _ Hrun). by exists e, prons', pron'. }
      split_and!; [by eapply Hin|by eapply lookup_total_elem_of_dom| |done].
      unfold scores. simpl. apply bool_decide_pack.
      pose proof (ratio_same (join k)). lia. }
  split; [done|]. intros Hcap out Hout.
  by apply (elem_of_uncapped cmu_dict
              (HomophoneWorker_init q pm acc mz mr uf) out (lower e) Hcap Hout).
Qed.

End Homophones.

Section Scale.

(** [fuzz.ratio] scores between 0 and 100. *)
Hypothesis ratio_range : ∀ s1 s2 : string, (0 ≤ ratio s1 s2 ≤ 100)%Z.

(** X14. The ends of the threshold scale: above 100 no sequence matches
    and every search emits the empty list; at 0 or below every sequence of
    the index matches as soon as the query has a pronunciation. *)
Theorem threshold_extremes cmu_dict w :
  ((100 < accuracy w)%Z →
     (∀ ts, matched w ts = ∅) ∧
     (∀ out, finished_emit cmu_dict w out → out = [])) ∧
  ((accuracy w ≤ 0)%Z →
     ∀ ts, ts ≠ [] → matched w ts = dom (phoneme_map w)).
Proof using ratio_range.
  split.
  - intros Hacc.
    assert (∀ ts, matched w ts = ∅) as Hm.
    { intros ts. apply elem_of_equiv_empty_L. intros c.
      rewrite elem_of_matched. intros [_ (seq & _ & Hs)].
      unfold scores in Hs. apply bool_decide_unpack in Hs.
      pose proof (ratio_range (join seq) (join c)). lia. }
    split; [done|]. intros out Hout.
    destruct out as [|x out]; [done|].
    assert (x ∈ x :: out) as Hx by left.
    apply (finished_emit_elem_of _ _ _ _ Hout), elem_of_surviving in Hx
      as (ts & _ & _ & Hc).
    apply candidates_matched in Hc as (c & Hc & _).
    rewrite Hm in Hc. by apply not_elem_of_empty in Hc.
  - intros Hacc ts Hts. apply set_eq. intros c.
    rewrite elem_of_matched. split; [by intros [? _]|]. intros Hc.
    split; [done|]. destruct ts as [|seq ts]; [done|].
    exists seq. split; [left|]. unfold scores. apply bool_decide_pack.
    pose proof (ratio_range (join seq) (join c)). lia.
Qed.

End Scale.

(** ** Further properties: a search started from the window *)

Lemma start_search_Some mw mw' a :
  start_search mw = (mw', Some a) →
  is_ready mw = true ∧
  arg_word a = lower (strip (input_text mw)) ∧
  arg_word a ≠ "" ∧
  arg_phoneme_map a = mw_phoneme_map mw ∧
  arg_accuracy a = accuracy_slider mw ∧
  arg_min_zipf a = freq_slider mw ∧
  arg_max_results a =
    (if unlimited_checked mw then 0%Z else result_limit_slider mw) ∧
  arg_use_freq_filter a = negb (unlimited_checked mw).
Proof.
  unfold start_search.
  destruct (String.eqb (lower (strip (input_text mw))) "") eqn:Hw; [done|].
  destruct (is_ready mw); [simpl|done]. intros [= _ <-]. simpl.
  apply String.eqb_neq in Hw. by destruct (unlimited_checked mw).
Qed.

(** X15. A search started from the window with "Unlimited Results" off
    and the result-limit slider at a positive value emits at most that
    many words, each with a frequency of at least the frequency slider's
    value and none the (stripped, lowercased) word typed in. *)
Theorem limited_search_from_window cmu_dict mw mw' pm a out :
  start_search mw = (mw', Some a) →
  unlimited_checked mw = false →
  (0 < result_limit_slider mw)%Z →
  finished_emit cmu_dict (worker_of_args pm a) out →
  (Z.of_nat (length out) ≤ result_limit_slider mw)%Z ∧
  ∀ x, x ∈ out →
       (inject_Z (freq_slider mw) <= zipf_frequency x)%Q ∧
       x ≠ lower (strip (input_text mw)).
Proof.
  intros (_ & Hw & _ & _ & _ & Hmz & Hmr & Huf)%start_search_Some Hun Hlim Hout.
  rewrite Hun in Hmr, Huf. simpl in Huf. split.
  - apply finished_emit_ranked in Hout as ->. unfold limited, worker_of_args.
    simpl. rewrite Hmr, bool_decide_eq_true_2 by done.
    rewrite length_take. lia.
  - intros x Hx. split.
    + rewrite <-Hmz.
      by apply (filter_on_threshold cmu_dict (worker_of_args pm a) out x).
    + apply (finished_emit_elem_of _ _ _ _ Hout), elem_of_surviving in Hx
        as (ts & _ & Hk & _).
      apply keeps_spec in Hk as [Hk _]. simpl in Hk.
      by rewrite Hw, lower_idemp in Hk.
Qed.

(** X16. A search started from the window with "Unlimited Results" on has
    neither cap nor frequency filter: it emits exactly the words stored
    under a matched sequence, but for the word typed in. *)
Theorem unlimited_search_from_window cmu_dict mw mw' pm a out ts :
  start_search mw = (mw', Some a) →
  unlimited_checked mw = true →
  mapM clean (default [] (cmu_dict !! lower (strip (input_text mw))))
    = Some ts →
  finished_emit cmu_dict (worker_of_args pm a) out →
  ∀ x, x ∈ out ↔
       x ∈ candidates (worker_of_args pm a) ts ∧
       x ≠ lower (strip (input_text mw)).
Proof.
  intros (_ & Hw & _ & _ & _ & _ & Hmr & Huf)%start_search_Some Hun Hts Hout x.
  rewrite Hun in Hmr, Huf. simpl in Huf.
  assert (word (worker_of_args pm a) = lower (strip (input_text mw))) as Hword
    by (simpl; by rewrite Hw, lower_idemp).
  rewrite (elem_of_uncapped cmu_dict (worker_of_args pm a) out x);
    [|simpl; lia|done].
  rewrite <-Hword.
  apply filter_off_surviving; [done|].
  unfold target_prons. by rewrite Hword.
Qed.

End Engine.

(** ** The frequency filter and words the oracle does not know *)

(** C3 (amended). With the filter on, every emitted word has a frequency of
    at least [min_zipf]; a word the oracle's table lacks is scored the floor
    [minimum], so it is dropped when [min_zipf] is above the floor and passes
    the filter otherwise. With the filter off, [min_zipf] is not read: the
    same list is emitted whatever its value, and the surviving words are the
    candidates other than the query word. *)
Theorem frequency_filter (ratio : string → string → Z)
    (table : gmap string Q) (minimum : Q)
    (cmu_dict : cmudict) (w : HomophoneWorker) (out : list string) :
  let zipf_frequency := oracle_frequency table minimum in
  finished_emit ratio zipf_frequency cmu_dict w out →
  (use_freq_filter w = true →
     (∀ x, x ∈ out → (min_zipf w <= zipf_frequency x)%Q) ∧
     ((minimum < min_zipf w)%Q → ∀ x, table !! x = None → x ∉ out) ∧
     ((min_zipf w <= minimum)%Q → ∀ ts x,
        mapM clean (target_prons cmu_dict w) = Some ts →
        table !! x = None → x ∈ candidates ratio w ts → x ≠ word w →
        x ∈ surviving ratio zipf_frequency cmu_dict w)) ∧
  (use_freq_filter w = false →
     (∀ mz, finished_emit ratio zipf_frequency cmu_dict (with_min_zipf mz w) out) ∧
     (∀ ts x,
        mapM clean (target_prons cmu_dict w) = Some ts →
        x ∈ surviving ratio zipf_frequency cmu_dict w ↔
        x ∈ candidates ratio w ts ∧ x ≠ word w)).
Proof.
  intros zipf_frequency Hout. split.
  - intros Hon. split_and!.
    + intros x Hx. by eapply filter_on_threshold.
    + intros Hlt x Hx Hin.
      pose proof (filter_on_threshold _ _ _ _ _ _ Hon Hout Hin) as Hle.
      unfold zipf_frequency, oracle_frequency in Hle.
      rewrite Hx in Hle. simpl in Hle. lra.
    + intros Hle ts x Hts Hx Hc Hne.
      apply elem_of_surviving. exists ts. split_and!; [done| |done].
      apply (proj2 (keeps_spec zipf_frequency w x)). split; [done|]. intros _.
      unfold zipf_frequency, oracle_frequency. by rewrite Hx.
  - intros Hoff. split.
    + intros mz. by apply filter_off_threshold.
    + intros ts x Hts. by apply filter_off_surviving.
Qed.

(** ** Searching before the index is ready *)

(** C8 (amended). A search asked for before the index is ready is ignored:
    [start_search] returns at its guard, starts no worker, leaves the window
    as it was and reports no error. *)
Theorem search_before_ready_ignored (mw : MainWindow) :
  is_ready mw = false → start_search mw = (mw, None).
Proof.
  intros H. unfold start_search. rewrite H. simpl. by rewrite orb_true_r.
Qed.

(** Once ready, a non-blank input starts a worker on the lowercased,
    stripped word. *)
Lemma search_when_ready (mw : MainWindow) :
  is_ready mw = true → lower (strip (input_text mw)) ≠ "" →
  ∃ args, (start_search mw).2 = Some args ∧
          arg_word args = lower (strip (input_text mw)) ∧
          arg_phoneme_map args = mw_phoneme_map mw ∧
          results_list (start_search mw).1 = ["Searching..."].
Proof.
  intros H Hw. unfold start_search. rewrite H.
  apply String.eqb_neq in Hw. rewrite Hw. simpl. by eexists.
Qed.

(** The window stays unready until [on_phoneme_ready]. *)
Lemma ready_after_build (pm : index) :
  is_ready MainWindow_init = false ∧
  is_ready (on_phoneme_ready pm MainWindow_init) = true ∧
  mw_phoneme_map (on_phoneme_ready pm MainWindow_init) = Some pm.
Proof. done. Qed.

(** ** The claims on the sample data *)

Lemma sample_ratio_same (s : string) : (100 ≤ sample_ratio s s)%Z.
Proof. unfold sample_ratio. by rewrite decide_True. Qed.

Lemma sample_run :
  run exact sample_dict =
    ([0; 10; 20; 30; 40; 50; 60; 70; 80; 90]%Z, Some sample_index).
Proof. vm_compute. reflexivity. Qed.

Lemma own_sequences_matched_self_excluded_witness :
  (∀ s : string, (100 ≤ sample_ratio s s)%Z) ∧
  run exact sample_dict =
    ([0; 10; 20; 30; 40; 50; 60; 70; 80; 90]%Z, Some sample_index) ∧
  sample_dict !! lower "Night" = Some [["N"; "AY1"; "T"]] ∧
  [["N"; "AY1"; "T"]] ≠ [] ∧
  ∃ ts,
    mapM clean [["N"; "AY1"; "T"]] = Some ts ∧ ts ≠ [] ∧
    (∀ seq, seq ∈ ts →
       seq ∈ matched sample_ratio (night_worker 100 2 0 true) ts ∧
       lower "Night" ∈ sample_index !!! seq ∧
       ∀ x, x ∈ sample_index !!! seq →
            x ∈ candidates sample_ratio (night_worker 100 2 0 true) ts) ∧
    lower "Night" ∈ candidates sample_ratio (night_worker 100 2 0 true) ts ∧
    (∀ out x,
       finished_emit sample_ratio sample_zipf sample_dict
         (night_worker 90 2 0 true) out →
       x ∈ out → lower x ≠ lower "Night") ∧
    (∀ out seq x,
       finished_emit sample_ratio sample_zipf sample_dict
         (night_worker 100 2 0 true) out →
       seq ∈ ts → x ∈ sample_index !!! seq → x ≠ lower "Night" →
       (true = true → (2 <= sample_zipf x)%Q) → (0 ≤ 0)%Z →
       x ∈ out).
Proof.
  split_and!; [exact sample_ratio_same|exact sample_run| |done|].
  { vm_compute. reflexivity. }
  apply (own_sequences_matched_self_excluded sample_ratio sample_zipf exact
           sample_ratio_same sample_dict [0; 10; 20; 30; 40; 50; 60; 70; 80; 90]%Z).
  - exact sample_run.
  - vm_compute. reflexivity.
  - done.
Defined.

Lemma ranked_then_cut_witness :
  finished_emit sample_ratio sample_zipf sample_dict
    (night_worker 60 2 2 true) ["knight"; "neat"] ∧
  ∃ ranked,
    NoDup ranked ∧
    (∀ x, x ∈ ranked ↔
          x ∈ surviving sample_ratio sample_zipf sample_dict
                (night_worker 60 2 2 true)) ∧
    StronglySorted (ranks_before sample_zipf) ranked ∧
    ((0 < max_results (night_worker 60 2 2 true))%Z →
       ["knight"; "neat"] =
         take (Z.to_nat (max_results (night_worker 60 2 2 true))) ranked ∧
       (Z.of_nat (length ["knight"; "neat"]) ≤
          max_results (night_worker 60 2 2 true))%Z ∧
       ∀ x y, x ∈ ["knight"; "neat"] → y ∈ ranked → y ∉ ["knight"; "neat"] →
              ranks_strictly_before sample_zipf x y) ∧
    (max_results (night_worker 60 2 2 true) = 0%Z →
       ["knight"; "neat"] = ranked).
Proof.
  assert (finished_emit sample_ratio sample_zipf sample_dict
            (night_worker 60 2 2 true) ["knight"; "neat"]) as H.
  { apply finished_emit_process. vm_compute. reflexivity. }
  split; [exact H|]. exact (ranked_then_cut _ _ _ _ _ H).
Defined.

Lemma frequency_filter_witness :
  finished_emit sample_ratio (oracle_frequency sample_table 0) sample_dict
    (night_worker 100 2 10 true) ["knight"; "nite"] ∧
  (use_freq_filter (night_worker 100 2 10 true) = true →
     (∀ x, x ∈ ["knight"; "nite"] →
           (min_zipf (night_worker 100 2 10 true) <=
            oracle_frequency sample_table 0 x)%Q) ∧
     ((0 < min_zipf (night_worker 100 2 10 true))%Q →
        ∀ x, sample_table !! x = None → x ∉ ["knight"; "nite"]) ∧
     ((min_zipf (night_worker 100 2 10 true) <= 0)%Q → ∀ ts x,
        mapM clean (target_prons sample_dict (night_worker 100 2 10 true))
          = Some ts →
        sample_table !! x = None →
        x ∈ candidates sample_ratio (night_worker 100 2 10 true) ts →
        x ≠ word (night_worker 100 2 10 true) →
        x ∈ surviving sample_ratio (oracle_frequency sample_table 0)
              sample_dict (night_worker 100 2 10 true))) ∧
  (use_freq_filter (night_worker 100 2 10 true) = false →
     (∀ mz, finished_emit sample_ratio (oracle_frequency sample_table 0)
              sample_dict (with_min_zipf mz (night_worker 100 2 10 true))
              ["knight"; "nite"]) ∧
     (∀ ts x,
        mapM clean (target_prons sample_dict (night_worker 100 2 10 true))
          = Some ts →
        x ∈ surviving sample_ratio (oracle_frequency sample_table 0)
              sample_dict (night_worker 100 2 10 true) ↔
        x ∈ candidates sample_ratio (night_worker 100 2 10 true) ts ∧
        x ≠ word (night_worker 100 2 10 true))).
Proof.
  assert (finished_emit sample_ratio (oracle_frequency sample_table 0)
            sample_dict (night_worker 100 2 10 true) ["knight"; "nite"]) as H.
  { apply finished_emit_process. vm_compute. reflexivity. }
  split; [exact H|]. exact (frequency_filter _ _ _ _ _ _ H).
Defined.

(** A word the oracle does not know passes the enabled filter when the
    threshold is not above the oracle's floor. *)
Lemma absent_frequency_not_dropped :
  use_freq_filter (night_worker 100 0 10 true) = true ∧
  sample_table !! "nyte" = None ∧
  finished_emit sample_ratio (oracle_frequency sample_table 0) sample_dict
    (night_worker 100 0 10 true) ["knight"; "nite"; "nyte"] ∧
  "nyte" ∈ ["knight"; "nite"; "nyte"].
Proof.
  split_and!; [done|vm_compute; reflexivity| |set_solver].
  apply finished_emit_process. vm_compute. reflexivity.
Qed.

Lemma matched_antitone_witness :
  phoneme_map (night_worker 70 2 10 true) =
    phoneme_map (night_worker 100 2 10 true) ∧
  (accuracy (night_worker 70 2 10 true) ≤
     accuracy (night_worker 100 2 10 true))%Z ∧
  matched sample_ratio (night_worker 100 2 10 true) [["N"; "AY"; "T"]] ⊆
    matched sample_ratio (night_worker 70 2 10 true) [["N"; "AY"; "T"]] ∧
  size (matched sample_ratio (night_worker 100 2 10 true) [["N"; "AY"; "T"]]) ≤
    size (matched sample_ratio (night_worker 70 2 10 true) [["N"; "AY"; "T"]]).
Proof.
  split_and!; [done|by vm_compute|..];
    apply (matched_antitone sample_ratio (night_worker 70 2 10 true)
             (night_worker 100 2 10 true)); (done || by vm_compute).
Defined.

Lemma exact_mono (x y : Q) : (x <= y)%Q → (exact x <= exact y)%Q.
Proof. done. Qed.

Lemma progress_values_witness :
  (∀ x y : Q, (x <= y)%Q → (exact x <= exact y)%Q) ∧
  (exact 0 == 0)%Q ∧ (exact 1 == 1)%Q ∧ (exact 100 == 100)%Q ∧
  Forall (λ p, (0 ≤ p ≤ 100)%Z) (run exact sample_dict).1 ∧
  StronglySorted Z.le (run exact sample_dict).1 ∧
  (sample_dict ≠ ∅ → head (run exact sample_dict).1 = Some 0%Z) ∧
  (sample_dict = ∅ → (run exact sample_dict).1 = []) ∧
  (is_Some (run exact sample_dict).2 →
     (run exact sample_dict).1 =
       (λ j, percent exact j (size sample_dict)) <$> seq 0 (size sample_dict) ∧
     (sample_dict ≠ ∅ →
        last (run exact sample_dict).1 =
          Some (percent exact (size sample_dict - 1) (size sample_dict)))).
Proof.
  split; [exact exact_mono|]. do 3 (split; [done|]).
  exact (progress_values exact exact_mono (Qeq_refl _) (Qeq_refl _)
           (Qeq_refl _) sample_dict).
Defined.

(** The build of a two-word dictionary emits [0] and [50] and finishes:
    its last progress value is not [100]. Both quotients and both products
    are exact in binary floating point. *)
Lemma progress_stops_short_of_100 :
  run exact two_word_dict = ([0; 50]%Z, Some two_word_index) ∧
  last (run exact two_word_dict).1 ≠ Some 100%Z.
Proof. split; [vm_compute; reflexivity|vm_compute; discriminate]. Qed.

Lemma unknown_word_emits_nil_witness :
  sample_dict !! word (HomophoneWorker_init "qwerty" sample_index 90 2 10 true)
    = None ∧
  process sample_ratio sample_zipf sample_dict
    (HomophoneWorker_init "qwerty" sample_index 90 2 10 true) = Some [] ∧
  (∀ out, finished_emit sample_ratio sample_zipf sample_dict
            (HomophoneWorker_init "qwerty" sample_index 90 2 10 true) out →
          out = []) ∧
  (∀ w' out', surviving sample_ratio sample_zipf sample_dict w' = ∅ →
              finished_emit sample_ratio sample_zipf sample_dict w' out' →
              out' = []).
Proof.
  assert (sample_dict !!
            word (HomophoneWorker_init "qwerty" sample_index 90 2 10 true)
          = None) as H by (vm_compute; reflexivity).
  split; [exact H|].
  exact (unknown_word_emits_nil sample_ratio sample_zipf sample_dict _ H).
Defined.

(** A word the dictionary lacks and a word it has, with no homophone: the
    search emits the same value for both. *)
Lemma unknown_word_untagged :
  sample_dict !! "qwerty" = None ∧
  sample_dict !! "zyzzyva" = Some [["Z"; "IH1"; "Z"; "IH0"; "V"; "AH0"]] ∧
  process sample_ratio sample_zipf sample_dict
    (HomophoneWorker_init "qwerty" sample_index 90 2 10 true) = Some [] ∧
  process sample_ratio sample_zipf sample_dict
    (HomophoneWorker_init "zyzzyva" sample_index 90 2 10 true) = Some [].
Proof. split_and!; vm_compute; reflexivity. Qed.

Lemma index_word_multiplicity_witness :
  run exact stress_dict = ([0%Z], Some stress_index) ∧
  occurrences "a" (stress_index !!! ["AH"]) =
    variants_at ["AH"] "a" (map_to_list stress_dict) ∧
  (NoDup (stress_index !!! ["AH"]) ↔
   ∀ w' : string, variants_at ["AH"] w' (map_to_list stress_dict) ≤ 1).
Proof.
  assert (run exact stress_dict = ([0%Z], Some stress_index)) as H
    by (vm_compute; reflexivity).
  split; [exact H|].
  exact (index_word_multiplicity exact stress_dict _ _ H ["AH"] "a").
Defined.

(** A word with two variants that differ only in stress is stored twice
    under their common normalized sequence. *)
Lemma index_word_twice :
  run exact stress_dict = ([0%Z], Some stress_index) ∧
  stress_index !!! ["AH"] = ["a"; "a"] ∧
  ¬ NoDup (stress_index !!! ["AH"]).
Proof.
  split_and!; [vm_compute; reflexivity..|].
  replace (stress_index !!! ["AH"]) with ["a"; "a"]
    by (vm_compute; reflexivity).
  intros H. apply NoDup_cons in H as [H _]. apply H. left.
Qed.

Lemma search_before_ready_ignored_witness :
  is_ready building_window = false ∧
  start_search building_window = (building_window, None).
Proof.
  split; [done|]. by apply (search_before_ready_ignored building_window).
Defined.

(** A search for "night" while the index is being built: no worker, no
    message, no error; the window is as before. *)
Lemma search_before_ready_silent :
  is_ready building_window = false ∧
  lower (strip (input_text building_window)) = "night" ∧
  (start_search building_window).2 = None ∧
  results_list (start_search building_window).1 = results_list building_window ∧
  (start_search building_window).1 = building_window.
Proof. split_and!; vm_compute; reflexivity. Qed.

(** Two runs that visit the sets in opposite orders. *)
Lemma search_deterministic_witness :
  finished_emit sample_ratio sample_zipf sample_dict
    (night_worker 60 2 0 true)
    (limited (night_worker 60 2 0 true)
       (sorted_words sample_zipf
          (elements (list_to_set (C := gset string)
             (valid sample_zipf (night_worker 60 2 0 true)
                (elements (candidates sample_ratio (night_worker 60 2 0 true)
                             [["N"; "AY"; "T"]]))))))) ∧
  finished_emit sample_ratio sample_zipf sample_dict
    (night_worker 60 2 0 true)
    (limited (night_worker 60 2 0 true)
       (sorted_words sample_zipf
          (reverse (elements (list_to_set (C := gset string)
             (valid sample_zipf (night_worker 60 2 0 true)
                (reverse (elements (candidates sample_ratio
                                      (night_worker 60 2 0 true)
                                      [["N"; "AY"; "T"]]))))))))) ∧
  limited (night_worker 60 2 0 true)
    (sorted_words sample_zipf
       (elements (list_to_set (C := gset string)
          (valid sample_zipf (night_worker 60 2 0 true)
             (elements (candidates sample_ratio (night_worker 60 2 0 true)
                          [["N"; "AY"; "T"]])))))) =
  limited (night_worker 60 2 0 true)
    (sorted_words sample_zipf
       (reverse (elements (list_to_set (C := gset string)
          (valid sample_zipf (night_worker 60 2 0 true)
             (reverse (elements (candidates sample_ratio
                                   (night_worker 60 2 0 true)
                                   [["N"; "AY"; "T"]]))))))))  .
Proof.
  assert (target_prons sample_dict (night_worker 60 2 0 true) ≠ []) as Hne
    by (vm_compute; discriminate).
  assert (mapM clean (target_prons sample_dict (night_worker 60 2 0 true))
          = Some [["N"; "AY"; "T"]]) as Hts by (vm_compute; reflexivity).
  pose proof (emit_ranked sample_ratio sample_zipf sample_dict
                (night_worker 60 2 0 true) _ _ _ Hne Hts
                (reflexivity _) (reflexivity _)) as H1.
  pose proof (emit_ranked sample_ratio sample_zipf sample_dict
                (night_worker 60 2 0 true) _ _ _ Hne Hts
                (reverse_Permutation _) (reverse_Permutation _)) as H2.
  split_and!; [exact H1|exact H2|].
  exact (search_deterministic _ _ _ _ _ _ H1 H2).
Defined.

(** ** Further properties: the window *)

Lemma lower_empty (s : string) : lower s = "" ↔ s = "".
Proof. by destruct s. Qed.

Lemma string_app_assoc (s t u : string) : s +:+ (t +:+ u) = (s +:+ t) +:+ u.
Proof. induction s as [|a s IH]; [done|]. by rewrite !append_cons, IH. Qed.

Lemma string_app_nil_r (s : string) : s +:+ "" = s.
Proof. induction s as [|a s IH]; [done|]. by rewrite append_cons, IH. Qed.

Lemma blank_app (s t : string) : blank s → blank t → blank (s +:+ t).
Proof.
  induction 1 as [|c s Hc _ IH]; intros Ht; [done|].
  rewrite <-string_app_assoc. constructor; auto.
Qed.

Lemma blank_char (c : string) : isspace c = true → blank c.
Proof.
  intros Hc. rewrite <-(string_app_nil_r c). by repeat constructor.
Qed.

Lemma rstrip_suffix (s : string) : ∃ b, blank b ∧ s = rstrip s +:+ b.
Proof.
  induction s as [|a s (b & Hb & IH)]; [by exists ""; split; [constructor|]|].
  cbn [rstrip]. destruct (isspace (String a (rstrip s))) eqn:Ha.
  - exists (String a s). split; [|done].
    rewrite IH. by apply (blank_cons (String a (rstrip s))).
  - exists b. split; [done|]. by rewrite append_cons, <-IH.
Qed.

Lemma lstrip_prefix (s : string) : ∃ b, blank b ∧ s = b +:+ lstrip s.
Proof.
  induction s as [s IH]
    using (well_founded_induction (well_founded_ltof _ String.length)).
  assert (∀ c t, isspace c = true → s = c +:+ t →
            String.length t < String.length s →
            ∃ b, blank b ∧ s = b +:+ lstrip t) as Hskip.
  { intros c t Hc -> Hlt. destruct (IH t Hlt) as (b & Hb & Ht).
    exists (c +:+ b). split; [by apply blank_app; [apply blank_char|]|].
    by rewrite <-string_app_assoc, <-Ht. }
  assert (∃ b, blank b ∧ s = b +:+ s) as Hstay
    by (by exists ""; split; [constructor|]).
  destruct s as [|a [|b [|c s]]]; cbn [lstrip]; [done|..].
  - destruct (isspace (String a "")) eqn:Ha; [|done].
    by apply (Hskip (String a "") ""); [| |simpl; lia].
  - destruct (isspace (String a "")) eqn:Ha;
      [by apply (Hskip (String a "") (String b "")); [| |simpl; lia]|].
    destruct (isspace (String a (String b ""))) eqn:Hab; [|done].
    by apply (Hskip (String a (String b "")) ""); [| |simpl; lia].
  - destruct (isspace (String a "")) eqn:Ha;
      [by apply (Hskip (String a "") (String b (String c s)));
         [| |simpl; lia]|].
    destruct (isspace (String a (String b ""))) eqn:Hab;
      [by apply (Hskip (String a (String b "")) (String c s));
         [| |simpl; lia]|].
    destruct (isspace (String a (String b (String c "")))) eqn:Habc; [|done].
    by apply (Hskip (String a (String b (String c ""))) s); [| |simpl; lia].
Qed.

Lemma lstrip_skip (c s : string) :
  isspace c = true → lstrip (c +:+ s) = lstrip s.
Proof.
  unfold isspace. rewrite bool_decide_eq_true. unfold whitespace.
  rewrite !fmap_cons, !elem_of_cons, fmap_nil, elem_of_nil.
  intros H. by repeat (destruct H as [->|H]; [done|]).
Qed.

Lemma lstrip_blank (s : string) : blank s → lstrip s = "".
Proof. induction 1 as [|c s Hc _ IH]; [done|]. by rewrite lstrip_skip. Qed.

Lemma strip_empty (s : string) : strip s = "" ↔ blank s.
Proof.
  unfold strip. split.
  - intros H. destruct (rstrip_suffix (lstrip s)) as (b & Hb & Hs).
    destruct (lstrip_prefix s) as (b' & Hb' & ->).
    apply blank_app; [done|]. rewrite Hs, H. done.
  - intros H. by rewrite lstrip_blank.
Qed.

(** X17. [start_search] starts a worker exactly when the index is ready and
    the text typed in is not made of white-space characters only; on every
    other call it leaves the window as it was. *)
Theorem start_search_launches_iff (mw : MainWindow) :
  (is_Some (start_search mw).2 ↔
   is_ready mw = true ∧ ¬ blank (input_text mw)) ∧
  ((start_search mw).2 = None → (start_search mw).1 = mw).
Proof.
  assert (String.eqb (lower (strip (input_text mw))) "" = false ↔
          ¬ blank (input_text mw)) as Hblank
    by (by rewrite String.eqb_neq, lower_empty, strip_empty).
  unfold start_search.
  destruct (String.eqb (lower (strip (input_text mw))) "") eqn:Hw; simpl.
  - split; [|done]. split; [by intros [? ?]|].
    intros [_ H]. apply Hblank in H. done.
  - destruct (is_ready mw); simpl.
    + split; [|done]. split; [|by eexists]. intros _. split; [done|].
      by apply Hblank.
    + split; [|done]. split; [by intros [? ?]|by intros [? _]].
Qed.

Lemma window_after_snoc (evs : list event) (ev : event) :
  window_after (evs ++ [ev]) = handle (window_after evs) ev.
Proof. unfold window_after. by rewrite foldl_app. Qed.

Lemma handle_keeps_ready (mw : MainWindow) (ev : event) :
  (∀ pm, ev ≠ PhonemeReady pm) →
  is_ready (handle mw ev) = is_ready mw ∧
  mw_phoneme_map (handle mw ev) = mw_phoneme_map mw.
Proof.
  destruct ev as [pm| | |]; simpl; [by intros H; destruct (H pm)|..]; try done.
  intros _. unfold start_search.
  by destruct (String.eqb _ _ || negb (is_ready mw)).
Qed.

Lemma window_after_ready (evs : list event) :
  (is_ready (window_after evs) = true ↔ ∃ pm, PhonemeReady pm ∈ evs) ∧
  (is_ready (window_after evs) = true ↔
   is_Some (mw_phoneme_map (window_after evs))) ∧
  (∀ pm, mw_phoneme_map (window_after evs) = Some pm → PhonemeReady pm ∈ evs).
Proof.
  induction evs as [|ev evs (IH1 & IH2 & IH3)] using rev_ind.
  - split_and!; [|by split; [|intros [? ?]]|done].
    split; [done|]. by intros (pm & ?%elem_of_nil).
  - rewrite window_after_snoc. setoid_rewrite elem_of_app.
    setoid_rewrite list_elem_of_singleton.
    assert ((∃ pm, ev = PhonemeReady pm) ∨ ∀ pm, ev ≠ PhonemeReady pm)
      as [[pm ->]|Hev] by (destruct ev; [left; eauto|right; done..]).
    + simpl. split_and!; [split; [|done]; eauto| by split; [eexists|] |].
      intros pm' [= <-]. by right.
    + destruct (handle_keeps_ready (window_after evs) ev Hev) as [-> ->].
      split_and!.
      * rewrite IH1. split; [intros [pm ?]; eauto|].
        intros (pm & [?|E]); [eauto|]. destruct (Hev pm). by symmetry.
      * done.
      * intros pm Hpm. left. auto.
Qed.

(** X18. The window's life cycle, over any sequence of events since
    [__init__]: it is ready exactly when the builder has finished, which is
    exactly when it holds an index; once ready it stays ready; and every
    worker that [start_search] starts is handed an index that the builder
    delivered. *)
Theorem ready_only_after_build (evs : list event) :
  (is_ready (window_after evs) = true ↔ ∃ pm, PhonemeReady pm ∈ evs) ∧
  (is_ready (window_after evs) = true ↔
   is_Some (mw_phoneme_map (window_after evs))) ∧
  (∀ evs', is_ready (window_after evs) = true →
           is_ready (window_after (evs ++ evs')) = true) ∧
  (∀ a, (start_search (window_after evs)).2 = Some a →
        ∃ pm, PhonemeReady pm ∈ evs ∧ arg_phoneme_map a = Some pm).
Proof.
  destruct (window_after_ready evs) as (H1 & H2 & H3). split_and!; [done..| |].
  - intros evs' [pm Hpm]%H1.
    apply (proj2 (proj1 (window_after_ready (evs ++ evs')))).
    exists pm. apply elem_of_app. by left.
  - intros a Ha.
    assert (is_ready (window_after evs) = true ∧
            arg_phoneme_map a = mw_phoneme_map (window_after evs)) as [Hr Hm].
    { revert Ha. unfold start_search.
      destruct (String.eqb _ _); [done|].
      destruct (is_ready (window_after evs)); [simpl|done].
      by intros [= <-]. }
    apply H2 in Hr as [pm Hpm]. exists pm. split; [by apply H3|].
    by rewrite Hm.
Qed.

(** X19. [display_results] never leaves the list empty, shows the one
    line "No homophones found" for no result, and otherwise one prefixed
    line per word, in order, and a count line; the lines shown determine
    the result that was displayed. *)
Theorem display_results_faithful (homophones : list string) (mw : MainWindow) :
  results_list (display_results homophones mw) ≠ [] ∧
  (homophones = [] →
   results_list (display_results homophones mw) = ["No homophones found"]) ∧
  (homophones ≠ [] →
   length (results_list (display_results homophones mw))
     = S (length homophones) ∧
   ∀ i w, homophones !! i = Some w →
          results_list (display_results homophones mw) !! i
            = Some (bullet +:+ w)) ∧
  (∀ h' mw',
     results_list (display_results h' mw') =
     results_list (display_results homophones mw) → h' = homophones).
Proof.
  split_and!.
  - simpl. case_decide; [done|]. intros E. apply (f_equal length) in E.
    rewrite length_app in E. simpl in E. lia.
  - intros ->. done.
  - intros Hne. simpl. rewrite decide_False by done. split.
    + rewrite length_app, length_fmap. simpl. lia.
    + intros i w Hi. rewrite lookup_app_l
        by (rewrite length_fmap; by eapply lookup_lt_Some).
      by rewrite list_lookup_fmap, Hi.
  - intros h' mw'. simpl. repeat case_decide; subst; [done|..].
    + intros E. apply (f_equal length) in E.
      rewrite length_app, length_fmap in E. simpl in E.
      destruct homophones; [done|simpl in E; lia].
    + intros E. apply (f_equal length) in E.
      rewrite length_app, length_fmap in E. simpl in E.
      destruct h'; [done|simpl in E; lia].
    + intros [E _]%app_inj_tail. by apply (inj (fmap (λ w, bullet +:+ w))) in E.
Qed.

(** ** The further properties on the sample data *)

Lemma stress_variants_share_key_witness :
  Forall2 same_but_stress ["R"; "EH1"; "D"] ["R"; "EH0"; "D"] ∧
  ∃ k, clean ["R"; "EH1"; "D"] = Some k ∧ clean ["R"; "EH0"; "D"] = Some k.
Proof.
  assert (Forall2 same_but_stress ["R"; "EH1"; "D"] ["R"; "EH0"; "D"]) as H.
  { constructor; [|constructor; [|constructor; [|constructor]]].
    - by left.
    - right. by exists "EH", "1"%char, "0"%char.
    - by left. }
  split; [exact H|]. exact (stress_variants_share_key _ _ H).
Defined.

Lemma built_index_lookup_witness :
  run exact sample_dict =
    ([0; 10; 20; 30; 40; 50; 60; 70; 80; 90]%Z, Some sample_index) ∧
  (∀ k (w : string),
     w ∈ sample_index !!! k ↔
     ∃ e prons pron, sample_dict !! e = Some prons ∧ lower e = w ∧
                     pron ∈ prons ∧ clean pron = Some k) ∧
  (∀ k, k ∈ dom sample_index ↔
        ∃ e prons pron, sample_dict !! e = Some prons ∧
                        pron ∈ prons ∧ clean pron = Some k) ∧
  (∀ k l, sample_index !! k = Some l → l ≠ []) ∧
  (∀ k (w : string), w ∈ sample_index !!! k → lower w = w).
Proof.
  split; [exact sample_run|].
  exact (built_index_lookup exact sample_dict _ _ sample_run).
Defined.

Lemma built_index_conserves_variants_witness :
  run exact sample_dict =
    ([0; 10; 20; 30; 40; 50; 60; 70; 80; 90]%Z, Some sample_index) ∧
  stored_words sample_index = total_variants sample_dict ∧
  size sample_index ≤ total_variants sample_dict.
Proof.
  split; [exact sample_run|].
  exact (built_index_conserves_variants exact sample_dict _ _ sample_run).
Defined.

Lemma emitted_words_from_index_witness :
  finished_emit sample_ratio sample_zipf sample_dict
    (night_worker 60 2 2 true) ["knight"; "neat"] ∧
  NoDup ["knight"; "neat"] ∧
  (word (night_worker 60 2 2 true) ∉ ["knight"; "neat"]) ∧
  ∀ x, x ∈ ["knight"; "neat"] →
       ∃ ts k,
         mapM clean (target_prons sample_dict (night_worker 60 2 2 true))
           = Some ts ∧
         k ∈ matched sample_ratio (night_worker 60 2 2 true) ts ∧
         x ∈ phoneme_map (night_worker 60 2 2 true) !!! k.
Proof.
  assert (finished_emit sample_ratio sample_zipf sample_dict
            (night_worker 60 2 2 true) ["knight"; "neat"]) as H.
  { apply finished_emit_process. vm_compute. reflexivity. }
  split; [exact H|]. exact (emitted_words_from_index _ _ _ _ _ H).
Defined.

Lemma cap_takes_prefix_witness :
  finished_emit sample_ratio sample_zipf sample_dict
    (with_max_results 2 (night_worker 60 2 10 true)) ["knight"; "neat"] ∧
  finished_emit sample_ratio sample_zipf sample_dict
    (with_max_results 0 (night_worker 60 2 10 true))
    ["knight"; "neat"; "nite"] ∧
  ["knight"; "neat"] =
    (if bool_decide (0 < 2)%Z
     then take (Z.to_nat 2) ["knight"; "neat"; "nite"]
     else ["knight"; "neat"; "nite"]) ∧
  ["knight"; "neat"] `prefix_of` ["knight"; "neat"; "nite"].
Proof.
  assert (finished_emit sample_ratio sample_zipf sample_dict
            (with_max_results 2 (night_worker 60 2 10 true))
            ["knight"; "neat"]) as H1.
  { apply finished_emit_process. vm_compute. reflexivity. }
  assert (finished_emit sample_ratio sample_zipf sample_dict
            (with_max_results 0 (night_worker 60 2 10 true))
            ["knight"; "neat"; "nite"]) as H2.
  { apply finished_emit_process. vm_compute. reflexivity. }
  split; [exact H1|]. split; [exact H2|].
  exact (cap_takes_prefix _ _ _ _ _ _ _ H1 H2).
Defined.

Lemma tightening_only_removes_witness :
  word (night_worker 60 2 0 true) = word (night_worker 100 3 0 true) ∧
  phoneme_map (night_worker 60 2 0 true)
    = phoneme_map (night_worker 100 3 0 true) ∧
  use_freq_filter (night_worker 60 2 0 true)
    = use_freq_filter (night_worker 100 3 0 true) ∧
  (accuracy (night_worker 60 2 0 true)
     ≤ accuracy (night_worker 100 3 0 true))%Z ∧
  (min_zipf (night_worker 60 2 0 true)
     <= min_zipf (night_worker 100 3 0 true))%Q ∧
  (max_results (night_worker 60 2 0 true) ≤ 0)%Z ∧
  (max_results (night_worker 100 3 0 true) ≤ 0)%Z ∧
  finished_emit sample_ratio sample_zipf sample_dict
    (night_worker 60 2 0 true) ["knight"; "neat"; "nite"] ∧
  finished_emit sample_ratio sample_zipf sample_dict
    (night_worker 100 3 0 true) ["knight"] ∧
  surviving sample_ratio sample_zipf sample_dict (night_worker 100 3 0 true)
    ⊆ surviving sample_ratio sample_zipf sample_dict
        (night_worker 60 2 0 true) ∧
  ["knight"] `sublist_of` ["knight"; "neat"; "nite"].
Proof.
  assert (finished_emit sample_ratio sample_zipf sample_dict
            (night_worker 60 2 0 true) ["knight"; "neat"; "nite"]) as H1.
  { apply finished_emit_process. vm_compute. reflexivity. }
  assert (finished_emit sample_ratio sample_zipf sample_dict
            (night_worker 100 3 0 true) ["knight"]) as H2.
  { apply finished_emit_process. vm_compute. reflexivity. }
  assert ((min_zipf (night_worker 60 2 0 true)
             <= min_zipf (night_worker 100 3 0 true))%Q) as Hq
    by (vm_compute; discriminate).
  assert ((accuracy (night_worker 60 2 0 true)
             ≤ accuracy (night_worker 100 3 0 true))%Z) as Ha
    by (vm_compute; discriminate).
  split_and!; [done|done|done|exact Ha|exact Hq|done|done|exact H1|exact H2|..];
    apply (tightening_only_removes sample_ratio sample_zipf sample_dict
             (night_worker 60 2 0 true) (night_worker 100 3 0 true)
             ["knight"; "neat"; "nite"] ["knight"]
             eq_refl eq_refl eq_refl Ha Hq);
    (done || exact H1 || exact H2).
Defined.

Lemma exact_homophone_found_witness :
  (∀ s : string, (100 ≤ sample_ratio s s)%Z) ∧
  run exact sample_dict =
    ([0; 10; 20; 30; 40; 50; 60; 70; 80; 90]%Z, Some sample_index) ∧
  sample_dict !! lower "Night" = Some [["N"; "AY1"; "T"]] ∧
  sample_dict !! "knight" = Some [["N"; "AY1"; "T"]] ∧
  clean ["N"; "AY1"; "T"] = Some ["N"; "AY"; "T"] ∧
  lower "knight" ≠ lower "Night" ∧
  (true = true → (2 <= sample_zipf (lower "knight"))%Q) ∧
  lower "knight" ∈ surviving sample_ratio sample_zipf sample_dict
                     (HomophoneWorker_init "Night" sample_index 90 2 0 true) ∧
  ((0 ≤ 0)%Z → ∀ out,
     finished_emit sample_ratio sample_zipf sample_dict
       (HomophoneWorker_init "Night" sample_index 90 2 0 true) out →
     lower "knight" ∈ out).
Proof.
  assert (sample_dict !! lower "Night" = Some [["N"; "AY1"; "T"]]) as Hq
    by (vm_compute; reflexivity).
  assert (sample_dict !! "knight" = Some [["N"; "AY1"; "T"]]) as He
    by (vm_compute; reflexivity).
  assert (clean ["N"; "AY1"; "T"] = Some ["N"; "AY"; "T"]) as Hc
    by (vm_compute; reflexivity).
  assert (lower "knight" ≠ lower "Night") as Hne by (vm_compute; discriminate).
  assert (true = true → (2 <= sample_zipf (lower "knight"))%Q) as Hf
    by (intros _; vm_compute; discriminate).
  assert (["N"; "AY1"; "T"] ∈ [["N"; "AY1"; "T"]]) as Hin by left.
  split_and!; [exact sample_ratio_same|exact sample_run|exact Hq|exact He|
               exact Hc|exact Hne|exact Hf|..];
    apply (exact_homophone_found sample_ratio sample_zipf exact
             sample_ratio_same sample_dict _ sample_index "Night" "knight"
             _ _ _ _ _ 90 2 0 true sample_run Hq Hin Hc He Hin Hc Hne);
    (done || exact Hf).
Defined.

Lemma equal_ratio_range (s1 s2 : string) : (0 ≤ equal_ratio s1 s2 ≤ 100)%Z.
Proof. unfold equal_ratio. case_decide; lia. Qed.

Lemma threshold_extremes_witness :
  (∀ s1 s2 : string, (0 ≤ equal_ratio s1 s2 ≤ 100)%Z) ∧
  ((100 < accuracy (night_worker 101 2 0 false))%Z →
     (∀ ts, matched equal_ratio (night_worker 101 2 0 false) ts = ∅) ∧
     (∀ out, finished_emit equal_ratio sample_zipf sample_dict
               (night_worker 101 2 0 false) out → out = [])) ∧
  ((accuracy (night_worker 101 2 0 false) ≤ 0)%Z →
     ∀ ts, ts ≠ [] →
           matched equal_ratio (night_worker 101 2 0 false) ts
             = dom (phoneme_map (night_worker 101 2 0 false))).
Proof.
  split; [exact equal_ratio_range|].
  exact (threshold_extremes equal_ratio sample_zipf equal_ratio_range
           sample_dict (night_worker 101 2 0 false)).
Defined.

Lemma limited_search_from_window_witness :
  start_search ready_window = ((start_search ready_window).1, Some ready_args) ∧
  unlimited_checked ready_window = false ∧
  (0 < result_limit_slider ready_window)%Z ∧
  finished_emit sample_ratio sample_zipf sample_dict
    (worker_of_args sample_index ready_args) ["knight"; "nite"] ∧
  (Z.of_nat (length ["knight"; "nite"]) ≤ result_limit_slider ready_window)%Z ∧
  ∀ x, x ∈ ["knight"; "nite"] →
       (inject_Z (freq_slider ready_window) <= sample_zipf x)%Q ∧
       x ≠ lower (strip (input_text ready_window)).
Proof.
  assert (start_search ready_window
          = ((start_search ready_window).1, Some ready_args)) as Hs
    by (vm_compute; reflexivity).
  assert (finished_emit sample_ratio sample_zipf sample_dict
            (worker_of_args sample_index ready_args) ["knight"; "nite"]) as H.
  { apply finished_emit_process. vm_compute. reflexivity. }
  assert ((0 < result_limit_slider ready_window)%Z) as Hl by (by vm_compute).
  split_and!; [exact Hs|done|exact Hl|exact H|..];
    apply (limited_search_from_window sample_ratio sample_zipf sample_dict
             ready_window _ sample_index ready_args ["knight"; "nite"]
             Hs eq_refl Hl H).
Defined.

Lemma unlimited_search_from_window_witness :
  start_search unlimited_window
    = ((start_search unlimited_window).1, Some unlimited_args) ∧
  unlimited_checked unlimited_window = true ∧
  mapM clean
    (default [] (sample_dict !! lower (strip (input_text unlimited_window))))
    = Some [["N"; "AY"; "T"]] ∧
  finished_emit sample_ratio sample_zipf sample_dict
    (worker_of_args sample_index unlimited_args) ["knight"; "nite"; "nyte"] ∧
  ∀ x, x ∈ ["knight"; "nite"; "nyte"] ↔
       x ∈ candidates sample_ratio
             (worker_of_args sample_index unlimited_args) [["N"; "AY"; "T"]] ∧
       x ≠ lower (strip (input_text unlimited_window)).
Proof.
  assert (start_search unlimited_window
          = ((start_search unlimited_window).1, Some unlimited_args)) as Hs
    by (vm_compute; reflexivity).
  assert (mapM clean
            (default [] (sample_dict !!
                           lower (strip (input_text unlimited_window))))
          = Some [["N"; "AY"; "T"]]) as Hts by (vm_compute; reflexivity).
  assert (finished_emit sample_ratio sample_zipf sample_dict
            (worker_of_args sample_index unlimited_args)
            ["knight"; "nite"; "nyte"]) as H.
  { apply finished_emit_process. vm_compute. reflexivity. }
  split_and!; [exact Hs|done|exact Hts|exact H|].
  exact (unlimited_search_from_window sample_ratio sample_zipf sample_dict
           unlimited_window _ sample_index unlimited_args
           ["knight"; "nite"; "nyte"] [["N"; "AY"; "T"]] Hs eq_refl Hts H).
Defined.

Lemma start_search_launches_iff_witness :
  is_ready blank_window = true ∧
  blank (input_text blank_window) ∧
  ¬ is_Some (start_search blank_window).2 ∧
  is_Some (start_search ready_window).2 ∧
  ¬ blank (input_text ready_window).
Proof.
  assert (blank (input_text blank_window)) as Hb.
  { apply (blank_cons (String "194" (String "160" ""))); [done|].
    apply (blank_cons " "); [done|].
    apply (blank_cons (String "009" "")); [done|]. constructor. }
  assert (is_Some (start_search ready_window).2) as Hr by (by eexists).
  split_and!; [done|exact Hb| |exact Hr|].
  - intros H. by apply (start_search_launches_iff blank_window) in H as [_ H].
  - by apply (start_search_launches_iff ready_window) in Hr as [_ Hr].
Defined.
